(** * C172PerfCat: the take-off performance engine of [src/lib/perf.ts]

    A shallow embedding of [calculate] and of the helpers it calls
    ([normalizePA], [clampIndex], [lerp], [bilinear], [weightInterp]),
    followed by the properties of the engine.

    Conventions of the embedding.
    - A finite JavaScript number is an exact rational ([Q]); decimal
      literals of the source ([0.10], [0.15], [0.5]) denote the rationals
      they spell.  Tables and requests hold finite numbers.
    - Arithmetic is exact here, where the source rounds each operation to
      binary64.  What is stated of the distances after the wind and
      surface steps is therefore an ordering, or a bound with a margin
      wider than that rounding for distances up to [farthest]; only
      the concrete scenarios name such a distance, and theirs are away
      from a rounding tie.
    - [NaN] can still arise inside [bilinear] (a missing axis entry, or
      [0/0] on an axis with a repeated value), so computed distances live
      in [num], which adds [NaN] to [Q].
    - [null] and [undefined] read from an array are both [None]: the source
      only ever tests them with [== null].
    - Reading a property of [undefined] throws; this is the [TypeError]
      completion.  Every function that can throw returns a [completion]. *)

From Stdlib Require Import String Ascii QArith Qround Qabs Qminmax ZArith List Bool.
From Stdlib Require Import Lia Lqa Permutation Sorted SetoidList SetoidPermutation DecimalString.
Import ListNotations.

Local Open Scope Q_scope.

(** ** Completions: a normal value or a thrown [TypeError] *)

Inductive completion (A : Type) : Type :=
| Normal (a : A)
| TypeError.

Arguments Normal {A} a.
Arguments TypeError {A}.

Definition bind {A B : Type} (c : completion A) (k : A -> completion B)
  : completion B :=
  match c with
  | Normal a => k a
  | TypeError => TypeError
  end.

Notation "x <- c ;; k" := (bind c (fun x => k))
  (at level 61, c at next level, right associativity).

(** [o.field] where [o] was read from an array: throws on [undefined]. *)
Definition defined {A : Type} (o : option A) : completion A :=
  match o with
  | Some a => Normal a
  | None => TypeError
  end.

Fixpoint mapM {A B : Type} (f : A -> completion B) (l : list A)
  : completion (list B) :=
  match l with
  | [] => Normal []
  | a :: tl => b <- f a ;; bs <- mapM f tl ;; Normal (b :: bs)
  end.

(** ** Numbers *)

Definition Qltb (x y : Q) : bool := negb (Qle_bool y x).

(** A computed number: finite, or [NaN]. *)
Inductive num : Type :=
| Fin (q : Q)
| NaN.

Definition nmul (a : num) (f : Q) : num :=
  match a with
  | Fin q => Fin (q * f)
  | NaN => NaN
  end.

Definition nadd (a b : num) : num :=
  match a, b with
  | Fin x, Fin y => Fin (x + y)
  | _, _ => NaN
  end.

(** [Math.round]: nearest integer, ties towards plus infinity. *)
Definition round_half_up (q : Q) : Z := Qfloor (q + (1 # 2)).

Definition Math_round (a : num) : num :=
  match a with
  | Fin q => Fin (inject_Z (round_half_up q))
  | NaN => NaN
  end.

(** [x < a] and [x > a] where [a] was read from an array: a comparison
    with [undefined] is false. *)
Definition lt_elem (x : Q) (a : option Q) : bool :=
  match a with
  | Some v => Qltb x v
  | None => false
  end.

Definition gt_elem (x : Q) (a : option Q) : bool :=
  match a with
  | Some v => Qltb v x
  | None => false
  end.

(** ** Data model ([src/types.ts]) *)

Definition MaybeNum : Type := option Q.
Definition Grid : Type := list (list MaybeNum).

Record Speeds : Type := {
  liftoff : Q;
  at_50ft : Q
}.

Record WeightTable : Type := {
  weight_lb : Q;
  speeds_kias : Speeds;
  ground_roll_ft : Grid;
  to_clear_50ft_ft : Grid
}.

Inductive PressureAltitude : Type :=
| SL
| Ft (ft : Q).

Record Units : Type := {
  u_weight : string;
  u_temperature : string;
  u_pressure_altitude : string;
  u_speed : string;
  u_distance : string
}.

Record Assumptions : Type := {
  a_config : string;
  a_runway : string;
  a_wind : string;
  a_technique : string
}.

Record Adjustments : Type := {
  headwind_per_9kt : Q;
  tailwind_up_to_10kt : Q;
  dry_grass_from_ground_roll : Q;
  adj_notes : list string
}.

Record GridData : Type := {
  pressure_altitudes_ft : list PressureAltitude;
  temperatures_c : list Q;
  weights : list WeightTable
}.

Record DataSchema : Type := {
  schema_version : string;
  aircraft : string;
  poh_edition_year : Q;
  units : Units;
  assumptions : Assumptions;
  adjustments : Adjustments;
  grid : GridData
}.

Record CalcInput : Type := {
  pressureAltitudeFt : Q;
  oatC : Q;
  weightLb : Q;
  windKtSigned : Q;
  dryGrass : bool
}.

Record CalcOutput : Type := {
  groundRollFt : option num;
  toClear50Ft : option num;
  liftoffKIAS : option num;
  at50ftKIAS : option num;
  notes : list string
}.

(** ** Helpers of [perf.ts] *)

Definition normalizePA (pa : PressureAltitude) : Q :=
  match pa with
  | SL => 0
  | Ft ft => ft
  end.

(** The [while] loop of [clampIndex]: [rest] is [axis[i+1 ..]]. *)
Fixpoint clampScan (x : Q) (rest : list Q) (i : nat) : nat :=
  match rest with
  | a :: tl => if Qltb a x then clampScan x tl (S i) else i
  | [] => i
  end.

Definition clampIndex (x : Q) (axis : list Q) : option nat :=
  if lt_elem x (nth_error axis 0)
     || gt_elem x (nth_error axis (length axis - 1))
  then None
  else Some (clampScan x (tl axis) 0).

Definition lerp (a b t : Q) : Q := a + (b - a) * t.

(** [grid[i][j]]: throws when row [i] is missing; a missing column reads
    [undefined]. *)
Definition cell (g : Grid) (i j : nat) : completion MaybeNum :=
  row <- defined (nth_error g i) ;;
  Normal (match nth_error row j with
          | Some c => c
          | None => None
          end).

(** [(x - x0) / (x1 - x0)] for axis entries that may be [undefined].
    [None] stands for [NaN]: an operand is [undefined], or the quotient
    is [0/0] (see [axisFraction_zero_over_zero]). *)
Definition axisFraction (x : Q) (x0 x1 : option Q) : option Q :=
  match x0, x1 with
  | Some a, Some b =>
      if Qeq_bool (b - a) 0 then None else Some ((x - a) / (b - a))
  | _, _ => None
  end.

Definition bilinear (x y : Q) (xs ys : list Q) (g : Grid)
  : completion (option num) :=
  match clampIndex x xs, clampIndex y ys with
  | Some i, Some j =>
      let x0 := nth_error xs i in
      let x1 := nth_error xs (i + 1) in
      let y0 := nth_error ys j in
      let y1 := nth_error ys (j + 1) in
      q11 <- cell g i j ;;
      q12 <- cell g i (j + 1) ;;
      q21 <- cell g (i + 1) j ;;
      q22 <- cell g (i + 1) (j + 1) ;;
      match q11, q12, q21, q22 with
      | Some q11, Some q12, Some q21, Some q22 =>
          match axisFraction x x0 x1, axisFraction y y0 y1 with
          | Some tx, Some ty =>
              let r1 := lerp q11 q12 ty in
              let r2 := lerp q21 q22 ty in
              Normal (Some (Fin (lerp r1 r2 tx)))
          | _, _ =>
              (* [lerp] of anything with a [NaN] fraction is [NaN] *)
              Normal (Some NaN)
          end
      | _, _, _, _ => Normal None
      end
  | _, _ => Normal None
  end.

(** [d || 1] *)
Definition orOne (d : Q) : Q := if Qeq_bool d 0 then 1 else d.

Definition blendCell (a b : MaybeNum) (t : Q) : MaybeNum :=
  match a, b with
  | Some a, Some b => Some (lerp a b t)
  | _, _ => None
  end.

Definition weightInterp (w : Q) (lower upper : Q * Grid)
  (pick : Grid -> nat -> nat -> completion MaybeNum) : completion Grid :=
  let rows := length (snd lower) in
  row0 <- defined (nth_error (snd lower) 0) ;;
  let cols := length row0 in
  let t := (w - fst lower) / orOne (fst upper - fst lower) in
  mapM (fun i =>
          mapM (fun j =>
                  a <- pick (snd lower) i j ;;
                  b <- pick (snd upper) i j ;;
                  Normal (blendCell a b t))
               (seq 0 cols))
       (seq 0 rows).

(** ** Number formatting used by the notes *)

Local Open Scope string_scope.

Definition decimalZ (z : Z) : string := NilZero.string_of_int (Z.to_int z).

Section Engine.

(** [Number::toString] of a number that is not an integer below [10^21]
    in magnitude prints the shortest digits that round-trip through
    binary64; the engine never inspects that text, so it is a parameter. *)
Variable toStringOther : Q -> string.

(** Template-literal conversion [`${n}`]. *)
Definition Number_toString (q : Q) : string :=
  let r := Qred q in
  if ((Z.pos (Qden r) =? 1) && (Z.abs (Qnum r) <? 10 ^ 21))%Z
  then decimalZ (Qnum r)
  else toStringOther r.

(** [n.toFixed(0)] *)
Definition toFixed0 (q : Q) : string :=
  if Qle_bool (inject_Z (10 ^ 21)) (Qabs q) then Number_toString q
  else if Qltb q 0 then "-" ++ decimalZ (round_half_up (- q))
  else decimalZ (round_half_up q).

Definition weightNote (w wMin wMax : Q) : string :=
  "Weight " ++ toFixed0 w ++ " lb outside table range "
    ++ Number_toString wMin ++ "-" ++ Number_toString wMax ++ " lb.".

Definition clampNote (paRaw : Q) : string :=
  "Pressure altitude " ++ Number_toString paRaw
    ++ " ft below POH grid; clamped to sea level (0 ft).".

Definition extrapolationNote : string :=
  "Requested conditions require extrapolation beyond POH grid or hit a null cell.".

(** ** [calculate] *)

(** [[...weights].sort((a, b) => a.weight_lb - b.weight_lb)]:
    [Array.prototype.sort] is stable, and so is this insertion sort. *)
Fixpoint insertByWeight (r : WeightTable) (l : list WeightTable)
  : list WeightTable :=
  match l with
  | [] => [r]
  | h :: tl =>
      if Qle_bool (weight_lb r) (weight_lb h) then r :: l
      else h :: insertByWeight r tl
  end.

Definition sortByWeight (l : list WeightTable) : list WeightTable :=
  fold_right insertByWeight [] l.

(** The bracketing loop: the first adjacent pair [(a, b)] of the sorted
    rows with [a.weight_lb <= w <= b.weight_lb]. *)
Fixpoint findBracket (w : Q) (l : list WeightTable)
  : option (WeightTable * WeightTable) :=
  match l with
  | a :: (b :: _) as tl =>
      if Qle_bool (weight_lb a) w && Qle_bool w (weight_lb b)
      then Some (a, b)
      else findBracket w tl
  | _ => None
  end.

(** [lower] and [upper] after the loop; they start as the first and the
    last sorted row. *)
Definition bracket (w : Q) (sorted : list WeightTable)
  (first last : WeightTable) : WeightTable * WeightTable :=
  match findBracket w sorted with
  | Some p => p
  | None => (first, last)
  end.

(** [tw] *)
Definition blendFraction (w : Q) (lower upper : WeightTable) : Q :=
  (w - weight_lb lower) / orOne (weight_lb upper - weight_lb lower).

(** The working altitude and the notes after the clamp step. *)
Definition clampAltitude (paRaw : Q) (xs : list Q) : Q * list string :=
  match nth_error xs 0 with
  | Some paMin =>
      if Qltb paRaw paMin then (paMin, [clampNote paRaw]) else (paRaw, [])
  | None => (paRaw, [])
  end.

(** [Math.max(1 - (wind / 9) * 0.10, 0.5)] *)
Definition headwindFactor (wind : Q) : Q :=
  Qmax (1 - (wind / 9) * (1 # 10)) (1 # 2).

(** [1 + (Math.min(Math.abs(wind), 10) / 10) * 0.10] *)
Definition tailwindFactor (wind : Q) : Q :=
  let twkt := Qmin (Qabs wind) 10 in
  1 + (twkt / 10) * (1 # 10).

(** The wind step on the pair [(roll, over50)]. *)
Definition applyWind (wind : Q) (p : num * num) : num * num :=
  let '(roll, over50) := p in
  if Qltb 0 wind then
    let factor := headwindFactor wind in
    (nmul roll factor, nmul over50 factor)
  else if Qltb wind 0 then
    let factor := tailwindFactor wind in
    (nmul roll factor, nmul over50 factor)
  else (roll, over50).

(** The dry-grass step on the pair [(roll, over50)]. *)
Definition applyGrass (grass : bool) (p : num * num) : num * num :=
  let '(roll, over50) := p in
  if grass then
    let grassInc := nmul roll (15 # 100) in
    (nadd roll grassInc, nadd over50 grassInc)
  else (roll, over50).

(** Lines 137-188 of [calculate]: clamp the altitude, look both blended
    grids up, then adjust for wind and surface and round. *)
Definition lookupAndAdjust (xs ys : list Q) (input : CalcInput)
  (liftoffKIAS' at50ftKIAS' : num) (rollGrid over50Grid : Grid)
  : completion CalcOutput :=
  let '(pa, notes') := clampAltitude (pressureAltitudeFt input) xs in
  let oat := oatC input in
  roll <- bilinear pa oat xs ys rollGrid ;;
  over50 <- bilinear pa oat xs ys over50Grid ;;
  match roll, over50 with
  | Some roll, Some over50 =>
      let '(roll, over50) :=
        applyGrass (dryGrass input)
          (applyWind (windKtSigned input) (roll, over50)) in
      Normal {| groundRollFt := Some (Math_round roll);
                toClear50Ft := Some (Math_round over50);
                liftoffKIAS := Some liftoffKIAS';
                at50ftKIAS := Some at50ftKIAS';
                notes := notes' |}
  | _, _ =>
      Normal {| groundRollFt := None;
                toClear50Ft := None;
                liftoffKIAS := Some liftoffKIAS';
                at50ftKIAS := Some at50ftKIAS';
                notes := extrapolationNote :: notes' |}
  end.

(** Lines 116-135 of [calculate]: the speeds and the two grids blended
    between the bracketing rows. *)
Definition blendSpeed (pick : Speeds -> Q) (w : Q) (lower upper : WeightTable)
  : num :=
  Math_round (Fin (lerp (pick (speeds_kias lower)) (pick (speeds_kias upper))
                        (blendFraction w lower upper))).

Definition blendGrid (pick : WeightTable -> Grid) (w : Q)
  (lower upper : WeightTable) : completion Grid :=
  weightInterp w (weight_lb lower, pick lower) (weight_lb upper, pick upper)
    cell.

Definition calculate (data : DataSchema) (input : CalcInput)
  : completion CalcOutput :=
  let xs := map normalizePA (pressure_altitudes_ft (grid data)) in
  let ys := temperatures_c (grid data) in
  let weightsSorted := sortByWeight (weights (grid data)) in
  first <- defined (nth_error weightsSorted 0) ;;
  let wMin := weight_lb first in
  last <- defined (nth_error weightsSorted (length weightsSorted - 1)) ;;
  let wMax := weight_lb last in
  if Qltb (weightLb input) wMin || Qltb wMax (weightLb input) then
    Normal {| groundRollFt := None;
              toClear50Ft := None;
              liftoffKIAS := None;
              at50ftKIAS := None;
              notes := [weightNote (weightLb input) wMin wMax] |}
  else
    let '(lower, upper) := bracket (weightLb input) weightsSorted first last in
    let w := weightLb input in
    let liftoffKIAS' := blendSpeed liftoff w lower upper in
    let at50ftKIAS' := blendSpeed at_50ft w lower upper in
    rollGrid <- blendGrid ground_roll_ft w lower upper ;;
    over50Grid <- blendGrid to_clear_50ft_ft w lower upper ;;
    lookupAndAdjust xs ys input liftoffKIAS' at50ftKIAS' rollGrid over50Grid.

End Engine.

(** ** Data-model invariants *)

Fixpoint strictlyIncreasing (l : list Q) : bool :=
  match l with
  | a :: (b :: _) as tl => Qltb a b && strictlyIncreasing tl
  | _ => true
  end.

Definition gridShape (rows cols : nat) (g : Grid) : bool :=
  (length g =? rows)%nat && forallb (fun r => (length r =? cols)%nat) g.

Definition rowShape (rows cols : nat) (t : WeightTable) : bool :=
  gridShape rows cols (ground_roll_ft t)
  && gridShape rows cols (to_clear_50ft_ft t).

Definition twoDistinctWeights (l : list WeightTable) : bool :=
  existsb (fun a =>
             existsb (fun b => negb (Qeq_bool (weight_lb a) (weight_lb b))) l)
          l.

Definition axisOf (d : DataSchema) : list Q :=
  map normalizePA (pressure_altitudes_ft (grid d)).

(** The table-level invariant of the data model: at least two distinct
    weights, both axes non-empty and strictly increasing (the altitude
    axis after normalization), every grid as large as the axes. *)
Definition tableInvariant (d : DataSchema) : bool :=
  let xs := axisOf d in
  let ys := temperatures_c (grid d) in
  twoDistinctWeights (weights (grid d))
  && (1 <=? length xs)%nat && strictlyIncreasing xs
  && (1 <=? length ys)%nat && strictlyIncreasing ys
  && forallb (rowShape (length xs) (length ys)) (weights (grid d)).

(** Requests and tables that differ in one field. *)
Definition withAltitude (i : CalcInput) (pa : Q) : CalcInput :=
  {| pressureAltitudeFt := pa; oatC := oatC i; weightLb := weightLb i;
     windKtSigned := windKtSigned i; dryGrass := dryGrass i |}.

Definition withWind (i : CalcInput) (wind : Q) : CalcInput :=
  {| pressureAltitudeFt := pressureAltitudeFt i; oatC := oatC i;
     weightLb := weightLb i; windKtSigned := wind; dryGrass := dryGrass i |}.

Definition withGrass (i : CalcInput) (g : bool) : CalcInput :=
  {| pressureAltitudeFt := pressureAltitudeFt i; oatC := oatC i;
     weightLb := weightLb i; windKtSigned := windKtSigned i; dryGrass := g |}.

Definition withWeights (d : DataSchema) (ws : list WeightTable) : DataSchema :=
  {| schema_version := schema_version d; aircraft := aircraft d;
     poh_edition_year := poh_edition_year d; units := units d;
     assumptions := assumptions d; adjustments := adjustments d;
     grid := {| pressure_altitudes_ft := pressure_altitudes_ft (grid d);
                temperatures_c := temperatures_c (grid d);
                weights := ws |} |}.

Definition withNotes (o : CalcOutput) (ns : list string) : CalcOutput :=
  {| groundRollFt := groundRollFt o; toClear50Ft := toClear50Ft o;
     liftoffKIAS := liftoffKIAS o; at50ftKIAS := at50ftKIAS o; notes := ns |}.

(** [sub] occurs in [s]. *)
Fixpoint isSubstring (sub s : string) : bool :=
  prefix sub s
  || match s with
     | EmptyString => false
     | String _ tl => isSubstring sub tl
     end.

(** ** The caller's angle helper (the application component)

    [normDeg] folds the difference between the wind direction and the
    runway heading.  The remainder operator [%] truncates the quotient
    towards zero, so its result has the sign of the dividend. *)

Definition Qtrunc (q : Q) : Z :=
  if Qle_bool 0 q then Qfloor q else Qceiling q.

(** [a % n] *)
Definition jsRem (a n : Q) : Q := a - n * inject_Z (Qtrunc (a / n)).

(** [((delta + 180) % 360 + 360) % 360 - 180] *)
Definition normDeg (delta : Q) : Q :=
  jsRem (jsRem (delta + 180) 360 + 360) 360 - 180.

(** ** The CSV line parser of [tools/build-runway-db.mjs]

    A line is a string of characters; the parser only ever compares a
    character with the double quote and with the comma. *)

Definition dquote : ascii := ascii_of_nat 34.

Definition comma : ascii := ascii_of_nat 44.

(** The [for] loop of [parseCSVLine], from index [i] on: [line] is what is
    left of the line at [i], [out], [cur] and [inQ] are the loop's
    variables.  A doubled quote inside quotes consumes two characters. *)
Fixpoint parseCSVLoop (line : string) (out : list string) (cur : string)
  (inQ : bool) : list string :=
  match line with
  | EmptyString => (out ++ [cur])%list
  | String ch rest =>
      if Ascii.eqb ch dquote then
        match rest with
        | String ch' rest' =>
            if inQ && Ascii.eqb ch' dquote
            then parseCSVLoop rest' out (cur ++ String dquote EmptyString) inQ
            else parseCSVLoop rest out cur (negb inQ)
        | EmptyString => parseCSVLoop rest out cur (negb inQ)
        end
      else if Ascii.eqb ch comma && negb inQ
      then parseCSVLoop rest (out ++ [cur])%list EmptyString inQ
      else parseCSVLoop rest out (cur ++ String ch EmptyString) inQ
  end.

Definition parseCSVLine (line : string) : list string :=
  parseCSVLoop line [] EmptyString false.

(** The writer's side of the format, to state what the parser inverts:
    fields joined by commas, and a field put between quotes with its own
    quotes doubled. *)
Fixpoint joinComma (fields : list string) : string :=
  match fields with
  | [] => EmptyString
  | [f] => f
  | f :: tl => f ++ String comma (joinComma tl)
  end.

Fixpoint csvEscape (f : string) : string :=
  match f with
  | EmptyString => EmptyString
  | String ch rest =>
      if Ascii.eqb ch dquote then String dquote (String dquote (csvEscape rest))
      else String ch (csvEscape rest)
  end.

Definition csvQuote (f : string) : string :=
  String dquote (csvEscape f ++ String dquote EmptyString).

(** No quote and no comma in the field. *)
Fixpoint plainField (f : string) : bool :=
  match f with
  | EmptyString => true
  | String ch rest =>
      negb (Ascii.eqb ch dquote) && negb (Ascii.eqb ch comma)
      && plainField rest
  end.

(** No quote in the line. *)
Fixpoint quoteFree (line : string) : bool :=
  match line with
  | EmptyString => true
  | String ch rest => negb (Ascii.eqb ch dquote) && quoteFree rest
  end.

(** ** Vocabulary of the properties *)

Definition byWeight (a b : WeightTable) : Prop := weight_lb a <= weight_lb b.

Definition belowWeight (a b : WeightTable) : Prop := weight_lb a < weight_lb b.

(** The rows are keyed by pairwise different weights. *)
Definition distinctWeights (l : list WeightTable) : Prop :=
  NoDupA Qeq (map weight_lb l).

(** The result of the weight gate. *)
Definition rejected (note : string) : CalcOutput :=
  {| groundRollFt := None; toClear50Ft := None;
     liftoffKIAS := None; at50ftKIAS := None; notes := [note] |}.

(** The result when a lookup fails. *)
Definition noDistance (lo a50 : num) (ns : list string) : CalcOutput :=
  {| groundRollFt := None; toClear50Ft := None;
     liftoffKIAS := Some lo; at50ftKIAS := Some a50; notes := ns |}.

(** [w] lies between the smallest and the largest table weight. *)
Definition weightInRange (d : DataSchema) (w : Q) : Prop :=
  (exists r, In r (weights (grid d)) /\ weight_lb r <= w)
  /\ (exists r, In r (weights (grid d)) /\ w <= weight_lb r).

(** [lower] and [upper] are the rows [calculate] brackets the in-range
    weight [w] with, and [rg], [og] the ground-roll and clear-50 grids it
    blends from them. *)
Definition blendedGrids (d : DataSchema) (w : Q) (lower upper : WeightTable)
  (rg og : Grid) : Prop :=
  let sorted := sortByWeight (weights (grid d)) in
  weightInRange d w
  /\ exists first last,
       nth_error sorted 0 = Some first
       /\ nth_error sorted (length sorted - 1) = Some last
       /\ bracket w sorted first last = (lower, upper)
       /\ blendGrid ground_roll_ft w lower upper = Normal rg
       /\ blendGrid to_clear_50ft_ft w lower upper = Normal og.

(** One of the four cells around [(i, j)] reads [null] or [undefined]. *)
Definition cornerAbsent (g : Grid) (i j : nat) : Prop :=
  cell g i j = Normal None \/ cell g i (j + 1) = Normal None
  \/ cell g (i + 1) j = Normal None \/ cell g (i + 1) (j + 1) = Normal None.


(** The result on distances [r] and [o] read from the blended grids,
    for a given wind and surface. *)
Definition adjusted (r o wind : Q) (grass : bool) (lo a50 : option num)
  (ns : list string) : CalcOutput :=
  let p := applyGrass grass (applyWind wind (Fin r, Fin o)) in
  {| groundRollFt := Some (Math_round (fst p));
     toClear50Ft := Some (Math_round (snd p));
     liftoffKIAS := lo; at50ftKIAS := a50; notes := ns |}.

(** What the wind step multiplies both distances by; calm wind leaves
    them as they are. *)
Definition windMultiplier (wind : Q) : Q :=
  if Qltb 0 wind then headwindFactor wind
  else if Qltb wind 0 then tailwindFactor wind
  else 1.

(** Both distances before the final rounding, from the values [r] and
    [o] read from the blended grids, the wind multiplier [m] and the
    surface. *)
Definition windSurface (r o m : Q) (grass : bool) : Q * Q :=
  if grass then (r * m + r * m * (15 # 100), o * m + r * m * (15 # 100))
  else (r * m, o * m).

(** The result on the pair [p] of distances before rounding. *)
Definition rounded (p : Q * Q) (lo a50 : option num) (ns : list string)
  : CalcOutput :=
  {| groundRollFt := Some (Fin (inject_Z (round_half_up (fst p))));
     toClear50Ft := Some (Fin (inject_Z (round_half_up (snd p))));
     liftoffKIAS := lo; at50ftKIAS := a50; notes := ns |}.

(** A bound on the distances, in feet, far above any take-off distance
    and far below the range where binary64 stops resolving single
    feet. *)
Definition farthest : Q := 1000000000000.

(** ** The toy tables of the concrete scenarios *)

Module Toy.

Definition constRows (a b : Q) : Grid := [[Some a; Some a]; [Some b; Some b]].

Definition row (w lo a50 r0 r2000 c0 c2000 : Q) : WeightTable :=
  {| weight_lb := w;
     speeds_kias := {| liftoff := lo; at_50ft := a50 |};
     ground_roll_ft := constRows r0 r2000;
     to_clear_50ft_ft := constRows c0 c2000 |}.

Definition table (xs : list PressureAltitude) (ys : list Q)
  (ws : list WeightTable) : DataSchema :=
  {| schema_version := "1";
     aircraft := "C172M";
     poh_edition_year := 1976;
     units := Build_Units "lb" "C" "ft" "KIAS" "ft";
     assumptions := Build_Assumptions "" "" "" "";
     adjustments := Build_Adjustments (- (1 # 10)) (1 # 10) (15 # 100) [];
     grid := {| pressure_altitudes_ft := xs;
                temperatures_c := ys;
                weights := ws |} |}.

Definition request (pa oat w wind : Q) (grass : bool) : CalcInput :=
  {| pressureAltitudeFt := pa; oatC := oat; weightLb := w;
     windKtSigned := wind; dryGrass := grass |}.

(** Weights {900, 1000}, altitudes {0, 2000}, temperatures {0, 20}. *)
Definition rows : list WeightTable :=
  [row 900 55 60 500 600 900 1100; row 1000 60 65 550 660 1000 1200].

Definition toy : DataSchema := table [SL; Ft 2000] [0; 20] rows.

(** The non-integer printer is never reached on the toy requests. *)
Definition noOther (q : Q) : string := "".

(** One altitude only: the invariant holds, there is nothing to bracket. *)
Definition oneAltitude : DataSchema :=
  table [SL] [0; 20]
    [{| weight_lb := 900;
        speeds_kias := {| liftoff := 55; at_50ft := 60 |};
        ground_roll_ft := [[Some 500; Some 500]];
        to_clear_50ft_ft := [[Some 900; Some 900]] |};
     {| weight_lb := 1000;
        speeds_kias := {| liftoff := 60; at_50ft := 65 |};
        ground_roll_ft := [[Some 550; Some 550]];
        to_clear_50ft_ft := [[Some 1000; Some 1000]] |}].

(** Ground roll 102 ft everywhere, clear-50 distance 200 ft at 900 lb and
    201 ft at 1000 lb. *)
Definition flat : DataSchema :=
  table [SL; Ft 2000] [0; 20]
    [row 900 55 60 102 102 200 200; row 1000 60 65 102 102 201 201].

(** The toy table with one ground-roll cell left empty at 1000 lb. *)
Definition holed : DataSchema :=
  table [SL; Ft 2000] [0; 20]
    [row 900 55 60 500 600 900 1100;
     {| weight_lb := 1000;
        speeds_kias := {| liftoff := 60; at_50ft := 65 |};
        ground_roll_ft := [[Some 550; Some 550]; [Some 660; None]];
        to_clear_50ft_ft := constRows 1000 1200 |}].

(** A table whose distances are all zero. *)
Definition still : DataSchema :=
  table [SL; Ft 2000] [0; 20]
    [row 900 55 60 0 0 0 0; row 1000 60 65 0 0 0 0].

(** Two rows stored under the same weight. *)
Definition twins : DataSchema :=
  table [SL; Ft 2000] [0; 20]
    [row 900 55 60 500 600 900 1100; row 900 57 62 510 610 910 1110].


End Toy.

(** * Properties *)

(** ** Comparisons and the completion monad *)

Lemma Qltb_lt (x y : Q) : Qltb x y = true <-> x < y.
Proof.
  unfold Qltb. rewrite negb_true_iff. split.
  - intros H. apply Qnot_le_lt. intro Hle.
    apply Qle_bool_iff in Hle. congruence.
  - intros H. destruct (Qle_bool y x) eqn:E; [|reflexivity].
    apply Qle_bool_iff in E. apply Qlt_not_le in H. contradiction.
Qed.

Lemma Qltb_ge (x y : Q) : Qltb x y = false <-> y <= x.
Proof.
  unfold Qltb. rewrite negb_false_iff. apply Qle_bool_iff.
Qed.

Lemma Qle_bool_false (x y : Q) : Qle_bool x y = false <-> y < x.
Proof.
  rewrite <- Qltb_lt. unfold Qltb. now rewrite negb_true_iff.
Qed.

Lemma bind_Normal {A B : Type} (c : completion A) (k : A -> completion B) (b : B) :
  bind c k = Normal b -> exists a, c = Normal a /\ k a = Normal b.
Proof.
  destruct c as [a|]; simpl; [eauto | discriminate].
Qed.

(** ** Sorting the weight rows *)

Lemma insertByWeight_perm (r : WeightTable) (l : list WeightTable) :
  Permutation (insertByWeight r l) (r :: l).
Proof.
  induction l as [|h tl IH]; simpl.
  - apply Permutation_refl.
  - destruct (Qle_bool (weight_lb r) (weight_lb h)).
    + apply Permutation_refl.
    + eapply perm_trans; [apply perm_skip, IH | apply perm_swap].
Qed.

Lemma sortByWeight_perm (l : list WeightTable) :
  Permutation (sortByWeight l) l.
Proof.
  induction l as [|h tl IH]; simpl.
  - apply perm_nil.
  - eapply perm_trans; [apply insertByWeight_perm | apply perm_skip, IH].
Qed.

Lemma insertByWeight_sorted (r : WeightTable) (l : list WeightTable) :
  StronglySorted byWeight l -> StronglySorted byWeight (insertByWeight r l).
Proof.
  induction 1 as [|h tl Hs IH Hall]; simpl.
  - constructor; constructor.
  - destruct (Qle_bool (weight_lb r) (weight_lb h)) eqn:E.
    + apply Qle_bool_iff in E.
      constructor; [constructor; assumption|].
      constructor; [exact E|].
      eapply Forall_impl; [|exact Hall].
      intros a Ha. unfold byWeight in *. eapply Qle_trans; eassumption.
    + apply Qle_bool_false in E.
      constructor; [exact IH|].
      eapply Permutation_Forall;
        [apply Permutation_sym, insertByWeight_perm|].
      constructor; [apply Qlt_le_weak, E | exact Hall].
Qed.

Lemma sortByWeight_sorted (l : list WeightTable) :
  StronglySorted byWeight (sortByWeight l).
Proof.
  induction l as [|h tl IH]; simpl.
  - constructor.
  - apply insertByWeight_sorted, IH.
Qed.

Lemma sortByWeight_length (l : list WeightTable) :
  length (sortByWeight l) = length l.
Proof.
  apply Permutation_length, sortByWeight_perm.
Qed.

Lemma sortByWeight_In (l : list WeightTable) (r : WeightTable) :
  In r (sortByWeight l) <-> In r l.
Proof.
  split; apply Permutation_in;
    [apply sortByWeight_perm | apply Permutation_sym, sortByWeight_perm].
Qed.

Lemma sorted_strict (l : list WeightTable) :
  StronglySorted byWeight l -> distinctWeights l ->
  StronglySorted belowWeight l.
Proof.
  unfold distinctWeights.
  induction 1 as [|h tl Hs IH Hall]; intros Hnd; simpl in Hnd.
  - constructor.
  - inversion Hnd as [|x xs Hnotin Hnd' Heq]; subst.
    constructor; [apply IH, Hnd'|].
    rewrite Forall_forall in *. intros a Ha.
    specialize (Hall a Ha). unfold byWeight, belowWeight in *.
    apply Qle_lteq in Hall. destruct Hall as [Hlt|Heq]; [exact Hlt|].
    exfalso. apply Hnotin. apply InA_alt.
    exists (weight_lb a). split; [exact Heq | apply in_map, Ha].
Qed.

Lemma strict_sorted_unique (l1 l2 : list WeightTable) :
  StronglySorted belowWeight l1 -> StronglySorted belowWeight l2 ->
  Permutation l1 l2 -> l1 = l2.
Proof.
  intros H1. revert l2.
  induction H1 as [|a t1 Hs1 IH Hall1]; intros l2 H2 Hp.
  - apply Permutation_nil in Hp. now subst.
  - destruct l2 as [|b t2].
    + apply Permutation_sym, Permutation_nil in Hp. discriminate.
    + inversion H2 as [|b' t2' Hs2 Hall2]; subst.
      assert (Hab : a = b).
      { assert (Ha : In a (b :: t2))
          by (eapply Permutation_in; [exact Hp | now left]).
        assert (Hb : In b (a :: t1))
          by (eapply Permutation_in;
              [apply Permutation_sym, Hp | now left]).
        rewrite Forall_forall in Hall1, Hall2. unfold belowWeight in *.
        destruct Ha as [Ha|Ha]; [now symmetry|].
        destruct Hb as [Hb|Hb]; [assumption|].
        specialize (Hall1 b Hb). specialize (Hall2 a Ha).
        exfalso. eapply Qlt_irrefl, Qlt_trans; eassumption. }
      subst b. f_equal. apply IH; [assumption|].
      eapply Permutation_cons_inv, Hp.
Qed.

Lemma distinctWeights_perm (l1 l2 : list WeightTable) :
  Permutation l1 l2 -> distinctWeights l1 -> distinctWeights l2.
Proof.
  unfold distinctWeights. intros Hp Hnd.
  eapply PermutationA_preserves_NoDupA; [apply Q_Setoid | | exact Hnd].
  apply Permutation_PermutationA; [apply Q_Setoid|].
  apply Permutation_map, Hp.
Qed.

Lemma sortByWeight_permuted (l1 l2 : list WeightTable) :
  Permutation l1 l2 -> distinctWeights l1 ->
  sortByWeight l1 = sortByWeight l2.
Proof.
  intros Hp Hnd.
  assert (Hq : Permutation (sortByWeight l1) (sortByWeight l2)).
  { eapply perm_trans; [apply sortByWeight_perm|].
    eapply perm_trans; [exact Hp|].
    apply Permutation_sym, sortByWeight_perm. }
  apply strict_sorted_unique; [| |exact Hq].
  - apply sorted_strict; [apply sortByWeight_sorted|].
    eapply distinctWeights_perm;
      [apply Permutation_sym, sortByWeight_perm | exact Hnd].
  - apply sorted_strict; [apply sortByWeight_sorted|].
    eapply distinctWeights_perm;
      [apply Permutation_sym, sortByWeight_perm|].
    eapply distinctWeights_perm; eassumption.
Qed.

Lemma sorted_first_min (l : list WeightTable) (f : WeightTable) :
  StronglySorted byWeight l -> nth_error l 0 = Some f ->
  forall r, In r l -> weight_lb f <= weight_lb r.
Proof.
  intros Hs Hf r Hr. destruct l as [|h tl]; [discriminate|].
  simpl in Hf. injection Hf as ->.
  inversion Hs as [|h' tl' Hs' Hall]; subst.
  destruct Hr as [->|Hr]; [apply Qle_refl|].
  rewrite Forall_forall in Hall. apply Hall, Hr.
Qed.

Lemma sorted_last_max (l : list WeightTable) (z : WeightTable) :
  StronglySorted byWeight l -> nth_error l (length l - 1) = Some z ->
  forall r, In r l -> weight_lb r <= weight_lb z.
Proof.
  induction 1 as [|h tl Hs IH Hall]; intros Hz r Hr; [contradiction|].
  assert (Hin : In z (h :: tl)) by (eapply nth_error_In, Hz).
  destruct Hr as [->|Hr].
  - destruct Hin as [->|Hin]; [apply Qle_refl|].
    rewrite Forall_forall in Hall. apply Hall, Hin.
  - destruct tl as [|h2 tl2]; [contradiction|].
    apply IH; [|exact Hr].
    simpl in Hz |- *. now rewrite Nat.sub_0_r in *.
Qed.

Lemma nth_error_last_defined {A : Type} (l : list A) :
  l <> [] -> exists z, nth_error l (length l - 1) = Some z.
Proof.
  intros Hne. destruct (nth_error l (length l - 1)) eqn:E; [eauto|].
  apply nth_error_None in E. destruct l; [contradiction|simpl in E; lia].
Qed.

Lemma sortByWeight_nonempty (l : list WeightTable) :
  l <> [] -> sortByWeight l <> [].
Proof.
  intros Hne Hs. apply Hne. apply length_zero_iff_nil.
  now rewrite <- sortByWeight_length, Hs.
Qed.

(** ** Substrings *)

Lemma prefix_append (m b : string) : prefix m (m ++ b) = true.
Proof.
  induction m as [|c m IH]; simpl; [now destruct b|].
  destruct (ascii_dec c c); [exact IH | contradiction].
Qed.

Lemma isSubstring_here (m b : string) : isSubstring m (m ++ b) = true.
Proof.
  pose proof (prefix_append m b) as H.
  destruct (m ++ b); cbn [isSubstring]; rewrite H; reflexivity.
Qed.

Lemma isSubstring_later (m a s : string) :
  isSubstring m s = true -> isSubstring m (a ++ s) = true.
Proof.
  intros H. induction a as [|c a IH]; [exact H|].
  cbn [append isSubstring]. rewrite IH. apply orb_true_r.
Qed.

(** ** The weight gate *)

(** C2: a weight strictly below every table weight, or strictly above
    every table weight, is rejected: the four distance and speed fields
    are absent and the only note is the weight note, which contains the
    printed smallest and largest table weights.  On the toy table
    {900 lb, 1000 lb} a request at 1200 lb gets one note, which
    mentions 900 and 1000. *)
Theorem weight_out_of_range_rejected (fmt : Q -> string) :
  (forall (d : DataSchema) (inp : CalcInput),
      weights (grid d) <> [] ->
      (forall r, In r (weights (grid d)) -> weightLb inp < weight_lb r)
      \/ (forall r, In r (weights (grid d)) -> weight_lb r < weightLb inp) ->
      exists rmin rmax note,
        In rmin (weights (grid d)) /\ In rmax (weights (grid d))
        /\ (forall r, In r (weights (grid d)) ->
                      weight_lb rmin <= weight_lb r <= weight_lb rmax)
        /\ calculate fmt d inp = Normal (rejected note)
        /\ isSubstring (Number_toString fmt (weight_lb rmin)) note = true
        /\ isSubstring (Number_toString fmt (weight_lb rmax)) note = true)
  /\ (forall pa oat wind grass,
         exists note,
           calculate fmt Toy.toy (Toy.request pa oat 1200 wind grass)
           = Normal (rejected note)
           /\ isSubstring "900" note = true
           /\ isSubstring "1000" note = true).
Proof.
  split.
  - intros d inp Hne Hout.
    set (ws := weights (grid d)) in *.
    pose proof (sortByWeight_sorted ws) as Hs.
    pose proof (sortByWeight_nonempty ws Hne) as Hne'.
    destruct (sortByWeight ws) as [|rmin tl] eqn:Esort; [contradiction|].
    destruct (nth_error_last_defined (rmin :: tl) Hne') as [rmax Hlast].
    assert (Hmin : In rmin ws)
      by (apply sortByWeight_In; rewrite Esort; now left).
    assert (Hmax : In rmax ws)
      by (apply sortByWeight_In; rewrite Esort;
          eapply nth_error_In, Hlast).
    exists rmin, rmax,
      (weightNote fmt (weightLb inp) (weight_lb rmin) (weight_lb rmax)).
    repeat split; try assumption.
    + apply (sorted_first_min (rmin :: tl)); [exact Hs | reflexivity|].
      rewrite <- Esort. now apply sortByWeight_In.
    + apply (sorted_last_max (rmin :: tl)); [exact Hs | exact Hlast|].
      rewrite <- Esort. now apply sortByWeight_In.
    + unfold calculate. fold ws. rewrite Esort.
      cbn [nth_error defined bind]. rewrite Hlast. cbn [defined bind].
      assert (Hgate : Qltb (weightLb inp) (weight_lb rmin)
                      || Qltb (weight_lb rmax) (weightLb inp) = true).
      { apply orb_true_iff. destruct Hout as [Hlo|Hhi].
        - left. apply Qltb_lt, Hlo, Hmin.
        - right. apply Qltb_lt, Hhi, Hmax. }
      rewrite Hgate. reflexivity.
    + unfold weightNote.
      do 3 apply isSubstring_later. apply isSubstring_here.
    + unfold weightNote.
      do 5 apply isSubstring_later. apply isSubstring_here.
  - intros pa oat wind grass.
    exists "Weight 1200 lb outside table range 900-1000 lb.".
    repeat split; vm_compute; reflexivity.
Qed.

Lemma weight_out_of_range_rejected_witness :
  exists note,
    calculate Toy.noOther Toy.toy (Toy.request 0 0 800 0 false)
    = Normal (rejected note).
Proof.
  destruct (weight_out_of_range_rejected Toy.noOther) as [H _].
  destruct (H Toy.toy (Toy.request 0 0 800 0 false)) as (rmin & rmax & note & Hr).
  - discriminate.
  - left. intros r Hr.
    cbn in Hr. destruct Hr as [<-|[<-|[]]]; reflexivity.
  - exists note. apply Hr.
Defined.

(** ** Row order *)

(** C10: two tables with the same axes whose weight rows are a
    permutation of one another (rows keyed by pairwise distinct weights,
    as the data model has them) give the same result on every request. *)
Theorem calculate_row_order_irrelevant (fmt : Q -> string)
  (d1 d2 : DataSchema) (inp : CalcInput) :
  pressure_altitudes_ft (grid d1) = pressure_altitudes_ft (grid d2) ->
  temperatures_c (grid d1) = temperatures_c (grid d2) ->
  Permutation (weights (grid d1)) (weights (grid d2)) ->
  distinctWeights (weights (grid d1)) ->
  calculate fmt d1 inp = calculate fmt d2 inp.
Proof.
  intros Hxs Hys Hp Hnd. unfold calculate.
  rewrite Hxs, Hys, (sortByWeight_permuted _ _ Hp Hnd). reflexivity.
Qed.

Lemma calculate_row_order_irrelevant_witness :
  calculate Toy.noOther Toy.toy (Toy.request 0 0 950 0 false)
  = calculate Toy.noOther (Toy.table [SL; Ft 2000] [0; 20] (rev Toy.rows))
      (Toy.request 0 0 950 0 false).
Proof.
  apply calculate_row_order_irrelevant.
  - reflexivity.
  - reflexivity.
  - simpl. apply perm_swap.
  - unfold distinctWeights. simpl.
    constructor; [|constructor; [|constructor]].
    + intros H. inversion H as [? ? E|? ? E]; subst;
        [discriminate E | inversion E].
    + intros H. inversion H.
Defined.

(** C10, as stated, fails when two rows share a weight: the sort keeps
    rows of equal weight in their stored order, and at 900 lb the first
    of the two 900 lb rows is the lower one. *)
Lemma duplicate_weights_order_matters :
  Permutation (weights (grid Toy.twins)) (rev (weights (grid Toy.twins)))
  /\ calculate Toy.noOther Toy.twins (Toy.request 0 0 900 0 false)
     = Normal {| groundRollFt := Some (Fin 500); toClear50Ft := Some (Fin 900);
                 liftoffKIAS := Some (Fin 55); at50ftKIAS := Some (Fin 60);
                 notes := [] |}
  /\ calculate Toy.noOther
       (withWeights Toy.twins (rev (weights (grid Toy.twins))))
       (Toy.request 0 0 900 0 false)
     = Normal {| groundRollFt := Some (Fin 510); toClear50Ft := Some (Fin 910);
                 liftoffKIAS := Some (Fin 57); at50ftKIAS := Some (Fin 62);
                 notes := [] |}.
Proof.
  split; [simpl; apply perm_swap|].
  split; vm_compute; reflexivity.
Qed.

(** ** [mapM] and [weightInterp] *)

Lemma mapM_length {A B : Type} (f : A -> completion B) (l : list A)
  (bs : list B) :
  mapM f l = Normal bs -> length bs = length l.
Proof.
  revert bs. induction l as [|a tl IH]; simpl; intros bs H.
  - injection H as <-. reflexivity.
  - apply bind_Normal in H. destruct H as (b & _ & H).
    apply bind_Normal in H. destruct H as (bs' & Hbs & H).
    injection H as <-. simpl. f_equal. apply IH, Hbs.
Qed.

Lemma mapM_nth {A B : Type} (f : A -> completion B) (l : list A)
  (bs : list B) (k : nat) (b : B) :
  mapM f l = Normal bs -> nth_error bs k = Some b ->
  exists a, nth_error l k = Some a /\ f a = Normal b.
Proof.
  revert bs k. induction l as [|a tl IH]; simpl; intros bs k H Hk.
  - injection H as <-. destruct k; discriminate.
  - apply bind_Normal in H. destruct H as (b0 & Hb0 & H).
    apply bind_Normal in H. destruct H as (bs' & Hbs & H).
    injection H as <-. destruct k as [|k]; simpl in Hk |- *.
    + injection Hk as <-. eauto.
    + eapply IH; eassumption.
Qed.

Lemma mapM_defined {A B : Type} (f : A -> completion B) (l : list A) :
  (forall a, In a l -> exists b, f a = Normal b) ->
  exists bs, mapM f l = Normal bs.
Proof.
  induction l as [|a tl IH]; simpl; intros H; [eauto|].
  destruct (H a (or_introl eq_refl)) as [b ->].
  destruct IH as [bs ->]; [intros; apply H; now right|].
  simpl. eauto.
Qed.

Lemma nth_error_seq (s n k : nat) :
  (k < n)%nat -> nth_error (seq s n) k = Some (s + k)%nat.
Proof.
  revert s k. induction n as [|n IH]; intros s k Hk; [lia|].
  destruct k as [|k]; simpl; [f_equal; lia|].
  rewrite IH by lia. f_equal. lia.
Qed.

Lemma cell_defined (g : Grid) (i j : nat) :
  (i < length g)%nat -> exists c, cell g i j = Normal c.
Proof.
  intros Hi. unfold cell.
  destruct (nth_error g i) eqn:E; [simpl; eauto|].
  apply nth_error_None in E. lia.
Qed.

(** What a successful [weightInterp] returns: as many rows as the lower
    grid, each as long as the lower grid's first row, each cell the blend
    of the two source cells. *)
Lemma weightInterp_Normal (w lw uw : Q) (lg ug g : Grid) :
  weightInterp w (lw, lg) (uw, ug) cell = Normal g ->
  length g = length lg
  /\ exists row0, nth_error lg 0 = Some row0
     /\ forall i row, nth_error g i = Some row ->
          length row = length row0
          /\ forall j c, nth_error row j = Some c ->
               exists a b, cell lg i j = Normal a /\ cell ug i j = Normal b
                 /\ c = blendCell a b ((w - lw) / orOne (uw - lw)).
Proof.
  unfold weightInterp. cbn [fst snd]. intros H.
  apply bind_Normal in H. destruct H as (row0 & Hrow0 & H).
  destruct (nth_error lg 0) as [r0|] eqn:E0; [|discriminate].
  injection Hrow0 as ->. split.
  - apply mapM_length in H. now rewrite length_seq in H.
  - exists row0. split; [reflexivity|]. intros i row Hrow.
    destruct (mapM_nth _ _ _ _ _ H Hrow) as (i' & Hi' & Hrowi).
    assert (Hlt : (i < length lg)%nat).
    { apply mapM_length in H. rewrite length_seq in H. rewrite <- H.
      apply nth_error_Some. congruence. }
    rewrite nth_error_seq in Hi' by exact Hlt. injection Hi' as <-.
    simpl in Hrowi. split.
    + apply mapM_length in Hrowi. now rewrite length_seq in Hrowi.
    + intros j c Hc.
      destruct (mapM_nth _ _ _ _ _ Hrowi Hc) as (j' & Hj' & Hcell).
      assert (Hjlt : (j < length row0)%nat).
      { apply mapM_length in Hrowi. rewrite length_seq in Hrowi.
        rewrite <- Hrowi. apply nth_error_Some. congruence. }
      rewrite nth_error_seq in Hj' by exact Hjlt. injection Hj' as <-.
      simpl in Hcell.
      apply bind_Normal in Hcell. destruct Hcell as (a & Ha & Hcell).
      apply bind_Normal in Hcell. destruct Hcell as (b & Hb & Hcell).
      injection Hcell as <-. eauto.
Qed.

Lemma weightInterp_defined (w lw uw : Q) (lg ug : Grid) :
  (1 <= length lg)%nat -> (length lg <= length ug)%nat ->
  exists g, weightInterp w (lw, lg) (uw, ug) cell = Normal g.
Proof.
  intros Hrows Hug. unfold weightInterp. cbn [fst snd].
  destruct (nth_error lg 0) as [row0|] eqn:E0.
  - cbn [defined bind]. apply mapM_defined. intros i Hi.
    apply in_seq in Hi. apply mapM_defined. intros j _.
    destruct (cell_defined lg i j) as [a ->]; [lia|].
    destruct (cell_defined ug i j) as [b ->]; [lia|].
    simpl. eauto.
  - apply nth_error_None in E0. lia.
Qed.

(** ** [clampIndex] and [bilinear] *)

Lemma clampScan_bound (x z : Q) (rest : list Q) (i : nat) :
  nth_error rest (length rest - 1) = Some z -> Qltb z x = false ->
  (clampScan x rest i < i + length rest)%nat.
Proof.
  revert i. induction rest as [|a tl IH]; intros i Hz Hx; [discriminate|].
  simpl. destruct tl as [|b tl'].
  - simpl in Hz. injection Hz as ->. rewrite Hx. lia.
  - destruct (Qltb a x).
    + specialize (IH (S i)). cbn [length] in IH, Hz |- *.
      replace (S (S (length tl')) - 1)%nat with (S (length tl')) in Hz by lia.
      cbn [nth_error] in Hz.
      replace (S (length tl') - 1)%nat with (length tl') in IH by lia.
      specialize (IH Hz Hx). lia.
    + cbn [length]. lia.
Qed.

Lemma clampIndex_bound (x : Q) (axis : list Q) (i : nat) :
  (2 <= length axis)%nat -> clampIndex x axis = Some i ->
  (i + 1 < length axis)%nat.
Proof.
  intros Hlen H. unfold clampIndex in H.
  destruct (lt_elem x (nth_error axis 0)
            || gt_elem x (nth_error axis (length axis - 1))) eqn:E;
    [discriminate|].
  injection H as <-. apply orb_false_iff in E. destruct E as [_ Egt].
  destruct axis as [|a0 rest]; [simpl in Hlen; lia|].
  destruct rest as [|a1 rest']; [simpl in Hlen; lia|].
  cbn [tl].
  destruct (nth_error_last_defined (a1 :: rest')) as [z Hz]; [discriminate|].
  assert (Hsame : nth_error (a0 :: a1 :: rest') (length (a0 :: a1 :: rest') - 1)
                  = Some z).
  { cbn [length] in Hz |- *.
    replace (S (S (length rest')) - 1)%nat with (S (length rest')) by lia.
    replace (S (length rest') - 1)%nat with (length rest') in Hz by lia.
    exact Hz. }
  rewrite Hsame in Egt. simpl in Egt.
  pose proof (clampScan_bound x z (a1 :: rest') 0 Hz Egt) as Hb.
  cbn [length] in Hb |- *. lia.
Qed.

Lemma clampScan_ge (x : Q) (rest : list Q) (k : nat) :
  (k <= clampScan x rest k)%nat.
Proof.
  revert k. induction rest as [|h tl IH]; intros k; simpl; [lia|].
  destruct (Qltb h x); [specialize (IH (S k)); lia | lia].
Qed.

(** The scan stops in front of the first entry that is not below [x] *)
Lemma clampScan_stop (x b : Q) (rest : list Q) (k : nat) :
  nth_error rest (clampScan x rest k - k) = Some b -> Qltb b x = false.
Proof.
  revert k. induction rest as [|h tl IH]; intros k; simpl.
  - destruct (k - k)%nat; discriminate.
  - destruct (Qltb h x) eqn:E.
    + pose proof (clampScan_ge x tl (S k)) as Hge.
      replace (clampScan x tl (S k) - k)%nat
        with (S (clampScan x tl (S k) - S k)) by lia.
      simpl. apply IH.
    + rewrite Nat.sub_diag. simpl. intros H. injection H as <-. exact E.
Qed.

(** and has passed entries below [x] only. *)
Lemma clampScan_passed (x a : Q) (rest : list Q) (k : nat) :
  (k < clampScan x rest k)%nat ->
  nth_error rest (clampScan x rest k - k - 1) = Some a -> Qltb a x = true.
Proof.
  revert k. induction rest as [|h tl IH]; intros k; simpl; [lia|].
  destruct (Qltb h x) eqn:E; [|lia].
  intros _. pose proof (clampScan_ge x tl (S k)) as Hge.
  destruct (Nat.eq_dec (clampScan x tl (S k)) (S k)) as [Heq|Hne].
  - rewrite Heq. replace (S k - k - 1)%nat with 0%nat by lia.
    simpl. intros H. injection H as <-. exact E.
  - replace (clampScan x tl (S k) - k - 1)%nat
      with (S (clampScan x tl (S k) - S k - 1)) by lia.
    simpl. apply IH. lia.
Qed.

(** The index [clampIndex] returns brackets [x] on any axis. *)
Lemma clampIndex_brackets (x a b : Q) (xs : list Q) (i : nat) :
  clampIndex x xs = Some i ->
  nth_error xs i = Some a -> nth_error xs (i + 1) = Some b ->
  a <= x /\ x <= b.
Proof.
  unfold clampIndex. intros H Ha Hb.
  destruct (lt_elem x (nth_error xs 0)
            || gt_elem x (nth_error xs (length xs - 1))) eqn:E;
    [discriminate|].
  injection H as <-. apply orb_false_iff in E. destruct E as [Elt _].
  destruct xs as [|a0 rest]; [destruct (clampScan x (tl []) 0); discriminate|].
  cbn [tl] in Ha, Hb. cbn [nth_error lt_elem] in Elt.
  rewrite Nat.add_1_r in Hb. cbn [nth_error] in Hb.
  split.
  - destruct (clampScan x rest 0) as [|n] eqn:En.
    + simpl in Ha. injection Ha as <-. apply Qltb_ge, Elt.
    + simpl in Ha. apply Qlt_le_weak, Qltb_lt.
      apply (clampScan_passed x a rest 0); rewrite En; [lia|].
      replace (S n - 0 - 1)%nat with n by lia. exact Ha.
  - apply Qltb_ge. apply (clampScan_stop x b rest 0).
    now rewrite Nat.sub_0_r.
Qed.

(** A zero divisor in [bilinear] only ever divides zero: the model's
    [None] of [axisFraction] is [NaN], never an infinity. *)
Lemma axisFraction_zero_over_zero (x a b : Q) (xs : list Q) (i : nat) :
  clampIndex x xs = Some i ->
  nth_error xs i = Some a -> nth_error xs (i + 1) = Some b ->
  b - a == 0 -> x - a == 0.
Proof.
  intros Hi Ha Hb Hz.
  destruct (clampIndex_brackets x a b xs i Hi Ha Hb). lra.
Qed.

Lemma bilinear_rows_defined (x y : Q) (xs ys : list Q) (g : Grid) :
  (forall i j, clampIndex x xs = Some i -> clampIndex y ys = Some j ->
               (i + 1 < length g)%nat) ->
  exists r, bilinear x y xs ys g = Normal r.
Proof.
  intros Hrows. unfold bilinear.
  destruct (clampIndex x xs) as [i|] eqn:Ei; [|eauto].
  destruct (clampIndex y ys) as [j|] eqn:Ej; [|eauto].
  specialize (Hrows i j eq_refl eq_refl).
  destruct (cell_defined g i j) as [q11 ->]; [lia|].
  destruct (cell_defined g i (j + 1)) as [q12 ->]; [lia|].
  destruct (cell_defined g (i + 1) j) as [q21 ->]; [lia|].
  destruct (cell_defined g (i + 1) (j + 1)) as [q22 ->]; [lia|].
  cbn [bind].
  destruct q11, q12, q21, q22; eauto.
  repeat match goal with
         | |- context [match axisFraction ?a ?b ?c with _ => _ end] =>
             destruct (axisFraction a b c)
         end; eauto.
Qed.

Lemma bilinear_defined (x y : Q) (xs ys : list Q) (g : Grid) :
  (2 <= length xs)%nat -> length g = length xs ->
  exists r, bilinear x y xs ys g = Normal r.
Proof.
  intros Hlen Hg. apply bilinear_rows_defined. intros i j Hi _.
  apply clampIndex_bound in Hi; [lia | exact Hlen].
Qed.

(** ** Bracketing *)

Lemma findBracket_Some (w : Q) (l : list WeightTable) (a b : WeightTable) :
  findBracket w l = Some (a, b) ->
  In a l /\ In b l /\ weight_lb a <= w /\ w <= weight_lb b.
Proof.
  induction l as [|x tl IH]; [discriminate|].
  destruct tl as [|y tl']; [discriminate|].
  cbn [findBracket].
  destruct (Qle_bool (weight_lb x) w && Qle_bool w (weight_lb y)) eqn:E.
  - intros H. injection H as <- <-.
    apply andb_true_iff in E. destruct E as [E1 E2].
    apply Qle_bool_iff in E1, E2. simpl. auto.
  - intros H. destruct (IH H) as (Ha & Hb & Hw). simpl in *. tauto.
Qed.

Lemma bracket_In (w : Q) (l : list WeightTable) (first last lo up : WeightTable) :
  In first l -> In last l -> bracket w l first last = (lo, up) ->
  In lo l /\ In up l.
Proof.
  unfold bracket. intros Hf Hl H.
  destruct (findBracket w l) as [[a b]|] eqn:E.
  - injection H as <- <-. apply findBracket_Some in E. tauto.
  - injection H as <- <-. auto.
Qed.

(** A sorted list of two rows or more brackets every weight between its
    first and its last row. *)
Lemma findBracket_defined (w : Q) (l : list WeightTable) (first last : WeightTable) :
  (2 <= length l)%nat ->
  nth_error l 0 = Some first -> nth_error l (length l - 1) = Some last ->
  weight_lb first <= w -> w <= weight_lb last ->
  exists a b, findBracket w l = Some (a, b).
Proof.
  revert first. induction l as [|x tl IH]; intros first Hlen Hf Hl Hlo Hhi;
    [simpl in Hlen; lia|].
  destruct tl as [|y tl']; [simpl in Hlen; lia|].
  cbn [findBracket]. simpl in Hf. injection Hf as <-.
  destruct (Qle_bool (weight_lb x) w && Qle_bool w (weight_lb y)) eqn:E;
    [eauto|].
  assert (Hy : weight_lb y <= w).
  { apply andb_false_iff in E. destruct E as [E|E].
    - apply Qle_bool_false in E. lra.
    - apply Qle_bool_false in E. lra. }
  destruct tl' as [|z tl''].
  - simpl in Hl. injection Hl as <-.
    exfalso. apply andb_false_iff in E. destruct E as [E|E];
      apply Qle_bool_false in E; lra.
  - apply (IH y); [simpl; lia | reflexivity | | exact Hy | exact Hhi].
    cbn [length] in Hl |- *.
    replace (S (S (S (length tl''))) - 1)%nat
      with (S (S (length tl''))) in Hl by lia.
    replace (S (S (length tl'')) - 1)%nat with (S (length tl'')) by lia.
    exact Hl.
Qed.

(** ** Consequences of the table invariant *)

Lemma gridShape_length (r c : nat) (g : Grid) :
  gridShape r c g = true -> length g = r.
Proof.
  unfold gridShape. intros H. apply andb_true_iff in H.
  destruct H as [H _]. now apply Nat.eqb_eq in H.
Qed.

Lemma tableInvariant_rows (d : DataSchema) (r : WeightTable) :
  tableInvariant d = true -> In r (weights (grid d)) ->
  length (ground_roll_ft r) = length (axisOf d)
  /\ length (to_clear_50ft_ft r) = length (axisOf d).
Proof.
  unfold tableInvariant. intros H Hr.
  apply andb_true_iff in H. destruct H as [_ H].
  rewrite forallb_forall in H. specialize (H r Hr).
  unfold rowShape in H. apply andb_true_iff in H. destruct H as [H1 H2].
  split; eapply gridShape_length; eassumption.
Qed.

Lemma tableInvariant_nonempty (d : DataSchema) :
  tableInvariant d = true -> weights (grid d) <> [].
Proof.
  unfold tableInvariant. intros H Hnil. rewrite Hnil in H.
  simpl in H. discriminate.
Qed.

Lemma lookupAndAdjust_defined (fmt : Q -> string) (xs ys : list Q)
  (inp : CalcInput) (lo a50 : num) (rg og : Grid) :
  (2 <= length xs)%nat -> length rg = length xs -> length og = length xs ->
  exists out, lookupAndAdjust fmt xs ys inp lo a50 rg og = Normal out.
Proof.
  intros Hlen Hrg Hog. unfold lookupAndAdjust.
  destruct (clampAltitude fmt (pressureAltitudeFt inp) xs) as [pa nts].
  destruct (bilinear_defined pa (oatC inp) xs ys rg Hlen Hrg) as [r ->].
  destruct (bilinear_defined pa (oatC inp) xs ys og Hlen Hog) as [o ->].
  cbn [bind]. destruct r as [r|], o as [o|]; eauto.
  destruct (applyGrass _ _). eauto.
Qed.

(** ** Faults *)

(** C7, as amended: on a table that satisfies the data-model invariants
    and has at least two altitudes, [calculate] completes normally on
    every request. *)
Theorem calculate_never_throws (fmt : Q -> string) (d : DataSchema)
  (inp : CalcInput) :
  tableInvariant d = true -> (2 <= length (axisOf d))%nat ->
  exists out, calculate fmt d inp = Normal out.
Proof.
  intros Hinv Hlen. unfold calculate.
  pose proof (tableInvariant_nonempty d Hinv) as Hne.
  pose proof (sortByWeight_nonempty _ Hne) as Hne'.
  destruct (sortByWeight (weights (grid d))) as [|first tl] eqn:Esort;
    [contradiction|].
  destruct (nth_error_last_defined (first :: tl) Hne') as [last Hlast].
  cbn [nth_error defined bind]. rewrite Hlast. cbn [defined bind].
  destruct (Qltb (weightLb inp) (weight_lb first)
            || Qltb (weight_lb last) (weightLb inp)); [eauto|].
  destruct (bracket (weightLb inp) (first :: tl) first last) as [lower upper]
    eqn:Ebr.
  apply bracket_In in Ebr;
    [|now left | eapply nth_error_In, Hlast].
  rewrite <- Esort in Ebr. destruct Ebr as [Hlo Hup].
  apply (proj1 (sortByWeight_In _ _)) in Hlo.
  apply (proj1 (sortByWeight_In _ _)) in Hup.
  destruct (tableInvariant_rows d lower Hinv Hlo) as [Hlr Hlc].
  destruct (tableInvariant_rows d upper Hinv Hup) as [Hur Huc].
  unfold blendGrid.
  destruct (weightInterp_defined (weightLb inp) (weight_lb lower)
              (weight_lb upper) (ground_roll_ft lower) (ground_roll_ft upper))
    as [rg Hrg]; [lia | lia |].
  destruct (weightInterp_defined (weightLb inp) (weight_lb lower)
              (weight_lb upper) (to_clear_50ft_ft lower)
              (to_clear_50ft_ft upper))
    as [og Hog]; [lia | lia |].
  rewrite Hrg, Hog. cbn [bind].
  apply weightInterp_Normal in Hrg, Hog.
  destruct Hrg as [Hrg _], Hog as [Hog _].
  apply lookupAndAdjust_defined; [exact Hlen | |]; unfold axisOf in *; lia.
Qed.

Lemma calculate_never_throws_witness :
  exists out,
    calculate Toy.noOther Toy.toy (Toy.request 0 0 950 0 false) = Normal out.
Proof.
  apply (calculate_never_throws Toy.noOther Toy.toy
           (Toy.request 0 0 950 0 false)).
  - reflexivity.
  - simpl. lia.
Defined.

(** C7, as stated, fails: this table satisfies the invariants the claim
    lists (two distinct weights, non-empty strictly increasing axes,
    matching grids), and the request throws on [grid[i + 1][j]]. *)
Lemma single_altitude_table_throws :
  tableInvariant Toy.oneAltitude = true
  /\ calculate Toy.noOther Toy.oneAltitude (Toy.request 0 0 950 0 false)
     = TypeError.
Proof.
  split; reflexivity.
Qed.

(** ** The in-range path of [calculate] *)

Lemma weightInRange_gate (d : DataSchema) (w : Q) :
  weightInRange d w ->
  exists first last,
    let sorted := sortByWeight (weights (grid d)) in
    nth_error sorted 0 = Some first
    /\ nth_error sorted (length sorted - 1) = Some last
    /\ weight_lb first <= w /\ w <= weight_lb last.
Proof.
  intros [(r1 & Hr1 & Hlo) (r2 & Hr2 & Hhi)].
  assert (Hne : weights (grid d) <> []) by (intros E; rewrite E in Hr1; exact Hr1).
  pose proof (sortByWeight_nonempty _ Hne) as Hne'.
  pose proof (sortByWeight_sorted (weights (grid d))) as Hs.
  destruct (sortByWeight (weights (grid d))) as [|first tl] eqn:Esort;
    [contradiction|].
  destruct (nth_error_last_defined (first :: tl) Hne') as [last Hlast].
  exists first, last. cbn zeta. repeat split; try assumption.
  - eapply Qle_trans; [|exact Hlo].
    apply (sorted_first_min (first :: tl)); [exact Hs | reflexivity|].
    rewrite <- Esort. now apply sortByWeight_In.
  - eapply Qle_trans; [exact Hhi|].
    apply (sorted_last_max (first :: tl)); [exact Hs | exact Hlast|].
    rewrite <- Esort. now apply sortByWeight_In.
Qed.

Lemma gate_open (w lo hi : Q) :
  lo <= w -> w <= hi -> Qltb w lo || Qltb hi w = false.
Proof.
  intros H1 H2. apply orb_false_iff. split; now apply Qltb_ge.
Qed.

Lemma calculate_in_range (fmt : Q -> string) (d : DataSchema)
  (inp : CalcInput) (lower upper : WeightTable) (rg og : Grid) :
  blendedGrids d (weightLb inp) lower upper rg og ->
  calculate fmt d inp
  = lookupAndAdjust fmt (axisOf d) (temperatures_c (grid d)) inp
      (blendSpeed liftoff (weightLb inp) lower upper)
      (blendSpeed at_50ft (weightLb inp) lower upper) rg og.
Proof.
  intros [Hin (first & last & Hf & Hl & Hbr & Hrg & Hog)].
  destruct (weightInRange_gate d _ Hin) as (f' & l' & Hf' & Hl' & Hlo & Hhi).
  cbn zeta in *. rewrite Hf in Hf'. rewrite Hl in Hl'.
  injection Hf' as <-. injection Hl' as <-.
  unfold calculate. rewrite Hf, Hl. cbn [defined bind].
  rewrite (gate_open _ _ _ Hlo Hhi), Hbr, Hrg, Hog. reflexivity.
Qed.

(** Every normal completion is either the weight rejection or the
    in-range path. *)
Lemma calculate_Normal (fmt : Q -> string) (d : DataSchema)
  (inp : CalcInput) (out : CalcOutput) :
  calculate fmt d inp = Normal out ->
  (exists note, out = rejected note)
  \/ exists lower upper rg og,
       blendedGrids d (weightLb inp) lower upper rg og.
Proof.
  unfold calculate. intros H.
  destruct (nth_error (sortByWeight (weights (grid d))) 0)
    as [first|] eqn:Hf; [|discriminate].
  destruct (nth_error (sortByWeight (weights (grid d)))
              (length (sortByWeight (weights (grid d))) - 1))
    as [last|] eqn:Hl; [|discriminate].
  cbn [defined bind] in H.
  destruct (Qltb (weightLb inp) (weight_lb first)
            || Qltb (weight_lb last) (weightLb inp)) eqn:Egate.
  - left. injection H as <-. eexists. reflexivity.
  - right.
    destruct (bracket (weightLb inp) _ first last) as [lower upper] eqn:Ebr.
    apply bind_Normal in H. destruct H as (rg & Hrg & H).
    apply bind_Normal in H. destruct H as (og & Hog & H).
    exists lower, upper, rg, og. split.
    + apply orb_false_iff in Egate. destruct Egate as [E1 E2].
      apply Qltb_ge in E1, E2. split.
      * exists first. split; [|exact E1].
        apply sortByWeight_In. eapply nth_error_In, Hf.
      * exists last. split; [|exact E2].
        apply sortByWeight_In. eapply nth_error_In, Hl.
    + exists first, last. auto.
Qed.

Lemma blendedGrids_rows (d : DataSchema) (w : Q) (lower upper : WeightTable)
  (rg og : Grid) :
  blendedGrids d w lower upper rg og ->
  In lower (weights (grid d)) /\ In upper (weights (grid d))
  /\ length rg = length (ground_roll_ft lower)
  /\ length og = length (to_clear_50ft_ft lower).
Proof.
  intros [_ (first & last & Hf & Hl & Hbr & Hrg & Hog)].
  apply bracket_In in Hbr; [|eapply nth_error_In; eassumption..].
  destruct Hbr as [Hlo Hup].
  apply (proj1 (sortByWeight_In _ _)) in Hlo.
  apply (proj1 (sortByWeight_In _ _)) in Hup.
  apply weightInterp_Normal in Hrg, Hog. tauto.
Qed.

(** ** Absent corners *)

Lemma cell_Normal_row (g : Grid) (i j : nat) (c : MaybeNum) :
  cell g i j = Normal c -> (i < length g)%nat.
Proof.
  unfold cell. destruct (nth_error g i) eqn:E; [|discriminate].
  intros _. apply nth_error_Some. congruence.
Qed.

Lemma bilinear_absent_corner (x y : Q) (xs ys : list Q) (g : Grid)
  (i j : nat) :
  clampIndex x xs = Some i -> clampIndex y ys = Some j ->
  (i + 1 < length g)%nat -> cornerAbsent g i j ->
  bilinear x y xs ys g = Normal None.
Proof.
  intros Hi Hj Hrows Habs. unfold bilinear. rewrite Hi, Hj.
  destruct (cell_defined g i j) as [q11 E11]; [lia|].
  destruct (cell_defined g i (j + 1)) as [q12 E12]; [lia|].
  destruct (cell_defined g (i + 1) j) as [q21 E21]; [lia|].
  destruct (cell_defined g (i + 1) (j + 1)) as [q22 E22]; [lia|].
  unfold cornerAbsent in Habs. rewrite E11, E12, E21, E22 in *.
  cbn [bind].
  destruct q11, q12, q21, q22; try reflexivity.
  destruct Habs as [H|[H|[H|H]]]; discriminate H.
Qed.

Lemma lookupAndAdjust_absent (fmt : Q -> string) (xs ys : list Q)
  (inp : CalcInput) (lo a50 : num) (rg og : Grid) (pa : Q)
  (nts : list string) (r o : option num) :
  clampAltitude fmt (pressureAltitudeFt inp) xs = (pa, nts) ->
  bilinear pa (oatC inp) xs ys rg = Normal r ->
  bilinear pa (oatC inp) xs ys og = Normal o ->
  r = None \/ o = None ->
  lookupAndAdjust fmt xs ys inp lo a50 rg og
  = Normal (noDistance lo a50 (extrapolationNote :: nts)).
Proof.
  intros Hc Hr Ho Hnone. unfold lookupAndAdjust.
  rewrite Hc, Hr, Ho. cbn [bind].
  destruct Hnone as [->| ->]; [reflexivity|]. now destruct r.
Qed.

(** C3: when a corner cell around the bracketed point is absent in a
    weight-blended grid, [bilinear] on that grid returns absent whatever
    the other corners hold, and [calculate] returns no distances, both
    speeds, and the extrapolation note. *)
Theorem absent_corner_propagates (fmt : Q -> string) (d : DataSchema)
  (inp : CalcInput) (lower upper : WeightTable) (rg og : Grid) (pa : Q)
  (nts : list string) (i j : nat) :
  blendedGrids d (weightLb inp) lower upper rg og ->
  clampAltitude fmt (pressureAltitudeFt inp) (axisOf d) = (pa, nts) ->
  clampIndex pa (axisOf d) = Some i ->
  clampIndex (oatC inp) (temperatures_c (grid d)) = Some j ->
  (i + 1 < length rg)%nat -> (i + 1 < length og)%nat ->
  (forall g, (i + 1 < length g)%nat -> cornerAbsent g i j ->
             bilinear pa (oatC inp) (axisOf d) (temperatures_c (grid d)) g
             = Normal None)
  /\ (cornerAbsent rg i j \/ cornerAbsent og i j ->
      calculate fmt d inp
      = Normal (noDistance (blendSpeed liftoff (weightLb inp) lower upper)
                           (blendSpeed at_50ft (weightLb inp) lower upper)
                           (extrapolationNote :: nts))).
Proof.
  intros Hbl Hc Hi Hj Hrg Hog. split.
  - intros g Hg Habs. eapply bilinear_absent_corner; eassumption.
  - intros Habs. rewrite (calculate_in_range fmt d inp _ _ _ _ Hbl).
    assert (Hr : exists r, bilinear pa (oatC inp) (axisOf d)
                             (temperatures_c (grid d)) rg = Normal r).
    { apply bilinear_rows_defined. intros i' j' Hi' _. congruence. }
    assert (Ho : exists o, bilinear pa (oatC inp) (axisOf d)
                             (temperatures_c (grid d)) og = Normal o).
    { apply bilinear_rows_defined. intros i' j' Hi' _. congruence. }
    destruct Hr as [r Hr], Ho as [o Ho].
    eapply lookupAndAdjust_absent; try eassumption.
    destruct Habs as [Habs|Habs].
    + left. rewrite (bilinear_absent_corner _ _ _ _ _ _ _ Hi Hj Hrg Habs) in Hr.
      congruence.
    + right. rewrite (bilinear_absent_corner _ _ _ _ _ _ _ Hi Hj Hog Habs) in Ho.
      congruence.
Qed.

Lemma absent_corner_propagates_witness :
  calculate Toy.noOther Toy.holed (Toy.request 1000 10 950 0 false)
  = Normal (noDistance (Fin 58) (Fin 63) [extrapolationNote]).
Proof.
  edestruct (absent_corner_propagates Toy.noOther Toy.holed
               (Toy.request 1000 10 950 0 false)
               (Toy.row 900 55 60 500 600 900 1100)
               (nth 1 (weights (grid Toy.holed)) (Toy.row 0 0 0 0 0 0 0)))
    as [_ Hcalc].
  - split.
    + split; [exists (Toy.row 900 55 60 500 600 900 1100)
             | exists (nth 1 (weights (grid Toy.holed)) (Toy.row 0 0 0 0 0 0 0))];
        (split; [simpl; tauto | vm_compute; discriminate]).
    + eexists _, _. repeat split; vm_compute; reflexivity.
  - vm_compute. reflexivity.
  - vm_compute. reflexivity.
  - vm_compute. reflexivity.
  - simpl. lia.
  - simpl. lia.
  - apply Hcalc. left. right. right. right. vm_compute. reflexivity.
Defined.

(** ** Altitude clamp *)

Lemma clampAltitude_below (fmt : Q -> string) (xs : list Q) (paRaw paMin : Q) :
  nth_error xs 0 = Some paMin -> paRaw < paMin ->
  clampAltitude fmt paRaw xs = (paMin, [clampNote fmt paRaw]).
Proof.
  intros Hmin Hlt. unfold clampAltitude. rewrite Hmin.
  apply Qltb_lt in Hlt. now rewrite Hlt.
Qed.

Lemma clampAltitude_not_below (fmt : Q -> string) (xs : list Q)
  (paRaw paMin : Q) :
  nth_error xs 0 = Some paMin -> paMin <= paRaw ->
  clampAltitude fmt paRaw xs = (paRaw, []).
Proof.
  intros Hmin Hge. unfold clampAltitude. rewrite Hmin.
  apply Qltb_ge in Hge. now rewrite Hge.
Qed.

Lemma bilinear_same_rows (x y : Q) (xs ys : list Q) (g1 g2 : Grid)
  (r : option num) :
  length g1 = length g2 -> bilinear x y xs ys g1 = Normal r ->
  exists r2, bilinear x y xs ys g2 = Normal r2.
Proof.
  intros Hlen H. apply bilinear_rows_defined. intros i j Hi Hj.
  unfold bilinear in H. rewrite Hi, Hj in H.
  apply bind_Normal in H. destruct H as (q11 & _ & H).
  apply bind_Normal in H. destruct H as (q12 & _ & H).
  apply bind_Normal in H. destruct H as (q21 & H21 & _).
  apply cell_Normal_row in H21. lia.
Qed.

(** C1, as amended: on a table satisfying the invariants, for an in-range
    weight and an altitude below the table minimum, when the lookup of
    either blended grid at the clamped point returns absent, the notes
    are exactly two: the extrapolation note first, the clamp note
    second. *)
Theorem failed_lookup_after_clamp_notes (fmt : Q -> string) (d : DataSchema)
  (inp : CalcInput) (lower upper : WeightTable) (rg og : Grid) (paMin : Q) :
  tableInvariant d = true ->
  blendedGrids d (weightLb inp) lower upper rg og ->
  nth_error (axisOf d) 0 = Some paMin ->
  pressureAltitudeFt inp < paMin ->
  bilinear paMin (oatC inp) (axisOf d) (temperatures_c (grid d)) rg
  = Normal None
  \/ bilinear paMin (oatC inp) (axisOf d) (temperatures_c (grid d)) og
     = Normal None ->
  calculate fmt d inp
  = Normal (noDistance (blendSpeed liftoff (weightLb inp) lower upper)
                       (blendSpeed at_50ft (weightLb inp) lower upper)
                       [extrapolationNote;
                        clampNote fmt (pressureAltitudeFt inp)]).
Proof.
  intros Hinv Hbl Hmin Hlt Hfail.
  rewrite (calculate_in_range fmt d inp _ _ _ _ Hbl).
  destruct (blendedGrids_rows _ _ _ _ _ _ Hbl) as (Hlo & _ & Hrg & Hog).
  destruct (tableInvariant_rows d lower Hinv Hlo) as [Hr Hc].
  assert (Hsame : length rg = length og) by congruence.
  pose proof (clampAltitude_below fmt _ _ _ Hmin Hlt) as Hclamp.
  destruct Hfail as [Hfail|Hfail].
  - destruct (bilinear_same_rows _ _ _ _ _ _ _ Hsame Hfail) as [o Ho].
    eapply lookupAndAdjust_absent; eauto.
  - destruct (bilinear_same_rows _ _ _ _ _ _ _ (eq_sym Hsame) Hfail) as [r Hr'].
    eapply lookupAndAdjust_absent; eauto.
Qed.

Lemma failed_lookup_after_clamp_notes_witness :
  calculate Toy.noOther Toy.toy (Toy.request (-500) 30 950 0 false)
  = Normal (noDistance (Fin 58) (Fin 63)
              [extrapolationNote; clampNote Toy.noOther (-500)]).
Proof.
  eapply (failed_lookup_after_clamp_notes Toy.noOther Toy.toy
            (Toy.request (-500) 30 950 0 false)
            (Toy.row 900 55 60 500 600 900 1100)
            (Toy.row 1000 60 65 550 660 1000 1200)).
  - reflexivity.
  - split.
    + split; [exists (Toy.row 900 55 60 500 600 900 1100)
             | exists (Toy.row 1000 60 65 550 660 1000 1200)];
        (split; [simpl; tauto | vm_compute; discriminate]).
    + eexists _, _. repeat split; vm_compute; reflexivity.
  - reflexivity.
  - reflexivity.
  - left. vm_compute. reflexivity.
Defined.

(** C1, as stated, fails: the toy table satisfies the invariants, 950 lb
    is in range, -500 ft is below the minimum, the lookup at (0 ft, 30 C)
    fails, and the clamp note is not first. *)
Lemma clamp_note_is_not_first :
  tableInvariant Toy.toy = true
  /\ weightInRange Toy.toy 950
  /\ -500 < 0
  /\ exists out,
       calculate Toy.noOther Toy.toy (Toy.request (-500) 30 950 0 false)
       = Normal out
       /\ groundRollFt out = None
       /\ notes out <> [clampNote Toy.noOther (-500); extrapolationNote].
Proof.
  split; [reflexivity|]. split; [|split; [reflexivity|]].
  - split; [exists (Toy.row 900 55 60 500 600 900 1100)
           | exists (Toy.row 1000 60 65 550 660 1000 1200)];
      (split; [simpl; tauto | vm_compute; discriminate]).
  - eexists. split; [vm_compute; reflexivity|].
    split; [reflexivity | discriminate].
Qed.

Lemma lookupAndAdjust_clamped (fmt : Q -> string) (xs ys : list Q)
  (inp : CalcInput) (lo a50 : num) (rg og : Grid) (paMin : Q) :
  nth_error xs 0 = Some paMin -> pressureAltitudeFt inp < paMin ->
  lookupAndAdjust fmt xs ys inp lo a50 rg og
  = match lookupAndAdjust fmt xs ys (withAltitude inp paMin) lo a50 rg og with
    | Normal o =>
        Normal (withNotes o
                  (notes o ++ [clampNote fmt (pressureAltitudeFt inp)])%list)
    | TypeError => TypeError
    end.
Proof.
  intros Hmin Hlt. unfold lookupAndAdjust.
  rewrite (clampAltitude_below fmt _ _ _ Hmin Hlt).
  cbn [withAltitude pressureAltitudeFt oatC windKtSigned dryGrass].
  rewrite (clampAltitude_not_below fmt _ _ _ Hmin (Qle_refl paMin)).
  destruct (bilinear paMin (oatC inp) xs ys rg) as [r|]; [|reflexivity].
  destruct (bilinear paMin (oatC inp) xs ys og) as [o|]; [|reflexivity].
  cbn [bind]. destruct r as [r|], o as [o|]; try reflexivity.
  destruct (applyGrass _ _). reflexivity.
Qed.

(** C4, as amended: for an in-range weight, a request below the lowest
    table altitude gets the result of the same request at that altitude
    with the clamp note added to the notes (and throws when that one
    throws).  Nothing is clamped at the high end: above the highest
    altitude the raw altitude is looked up, no distance is returned and
    the only note is the extrapolation note. *)
Theorem clamp_law (fmt : Q -> string) (d : DataSchema) (paMin : Q) :
  nth_error (axisOf d) 0 = Some paMin ->
  (forall inp : CalcInput,
      weightInRange d (weightLb inp) -> pressureAltitudeFt inp < paMin ->
      calculate fmt d inp
      = match calculate fmt d (withAltitude inp paMin) with
        | Normal o =>
            Normal (withNotes o
                      (notes o ++ [clampNote fmt (pressureAltitudeFt inp)])%list)
        | TypeError => TypeError
        end)
  /\ (forall (inp : CalcInput) (paMax : Q) (lower upper : WeightTable)
             (rg og : Grid),
         nth_error (axisOf d) (length (axisOf d) - 1) = Some paMax ->
         paMin <= pressureAltitudeFt inp -> paMax < pressureAltitudeFt inp ->
         blendedGrids d (weightLb inp) lower upper rg og ->
         clampAltitude fmt (pressureAltitudeFt inp) (axisOf d)
         = (pressureAltitudeFt inp, [])
         /\ calculate fmt d inp
            = Normal (noDistance
                        (blendSpeed liftoff (weightLb inp) lower upper)
                        (blendSpeed at_50ft (weightLb inp) lower upper)
                        [extrapolationNote])).
Proof.
  intros Hmin. split.
  - intros inp Hin Hlt.
    destruct (weightInRange_gate d _ Hin) as (first & last & Hf & Hl & Hlo & Hhi).
    cbn zeta in *. unfold calculate.
    cbn [withAltitude weightLb].
    rewrite Hf, Hl. cbn [defined bind].
    rewrite (gate_open _ _ _ Hlo Hhi).
    destruct (bracket (weightLb inp) _ first last) as [lower upper].
    destruct (blendGrid ground_roll_ft _ lower upper) as [rg|];
      [|reflexivity].
    destruct (blendGrid to_clear_50ft_ft _ lower upper) as [og|];
      [|reflexivity].
    cbn [bind]. apply lookupAndAdjust_clamped; assumption.
  - intros inp paMax lower upper rg og Hmax Hge Hgt Hbl.
    pose proof (clampAltitude_not_below fmt _ _ _ Hmin Hge) as Hclamp.
    split; [exact Hclamp|].
    rewrite (calculate_in_range fmt d inp _ _ _ _ Hbl).
    assert (Hidx : clampIndex (pressureAltitudeFt inp) (axisOf d) = None).
    { unfold clampIndex. rewrite Hmax. cbn [gt_elem].
      apply Qltb_lt in Hgt. rewrite Hgt, orb_true_r. reflexivity. }
    eapply lookupAndAdjust_absent; [exact Hclamp | | | left; reflexivity];
      unfold bilinear; rewrite Hidx; reflexivity.
Qed.

Lemma clamp_law_witness :
  calculate Toy.noOther Toy.toy (Toy.request (-500) 0 950 0 false)
  = match calculate Toy.noOther Toy.toy
            (withAltitude (Toy.request (-500) 0 950 0 false) 0) with
    | Normal o =>
        Normal (withNotes o (notes o ++ [clampNote Toy.noOther (-500)])%list)
    | TypeError => TypeError
    end.
Proof.
  destruct (clamp_law Toy.noOther Toy.toy 0 eq_refl) as [H _].
  apply (H (Toy.request (-500) 0 950 0 false)).
  - split; [exists (Toy.row 900 55 60 500 600 900 1100)
           | exists (Toy.row 1000 60 65 550 660 1000 1200)];
      (split; [simpl; tauto | vm_compute; discriminate]).
  - reflexivity.
Defined.

(** C4, as stated, fails for a weight outside the table: the request is
    rejected before the clamp step, so below the minimum altitude it gets
    the very notes of the request at the minimum, without a clamp note. *)
Lemma no_clamp_note_when_rejected :
  -500 < 0
  /\ exists o,
       calculate Toy.noOther Toy.toy (Toy.request 0 0 1200 0 false)
       = Normal o
       /\ calculate Toy.noOther Toy.toy (Toy.request (-500) 0 1200 0 false)
          = Normal o
       /\ calculate Toy.noOther Toy.toy (Toy.request (-500) 0 1200 0 false)
          <> Normal (withNotes o
                       (notes o ++ [clampNote Toy.noOther (-500)])%list).
Proof.
  split; [reflexivity|]. eexists. split; [vm_compute; reflexivity|].
  split; [vm_compute; reflexivity|].
  vm_compute. discriminate.
Qed.

(** ** The degenerate bracket *)


Lemma orOne_nonzero (d : Q) : ~ orOne d == 0.
Proof.
  unfold orOne. destruct (Qeq_bool d 0) eqn:E.
  - discriminate.
  - apply Qeq_bool_neq, E.
Qed.

Lemma Math_round_Qeq (x y : Q) : x == y -> Math_round (Fin x) = Math_round (Fin y).
Proof.
  intros H. unfold Math_round, round_half_up. do 2 f_equal.
  apply Qfloor_comp. now rewrite H.
Qed.

Lemma lookupAndAdjust_speeds (fmt : Q -> string) (xs ys : list Q)
  (inp : CalcInput) (lo a50 : num) (rg og : Grid) (out : CalcOutput) :
  lookupAndAdjust fmt xs ys inp lo a50 rg og = Normal out ->
  liftoffKIAS out = Some lo /\ at50ftKIAS out = Some a50.
Proof.
  unfold lookupAndAdjust.
  destruct (clampAltitude fmt (pressureAltitudeFt inp) xs) as [pa nts].
  intros H.
  apply bind_Normal in H. destruct H as (r & _ & H).
  apply bind_Normal in H. destruct H as (o & _ & H).
  destruct r as [r|], o as [o|];
    try (injection H as <-; split; reflexivity).
  destruct (applyGrass _ _). injection H as <-. split; reflexivity.
Qed.




(** ** Distances as a function of wind and surface *)

Lemma adjust_NaN_roll (wind : Q) (grass : bool) (y : num) :
  fst (applyGrass grass (applyWind wind (NaN, y))) = NaN.
Proof.
  unfold applyWind, applyGrass.
  destruct (Qltb 0 wind); [|destruct (Qltb wind 0)];
    destruct grass; reflexivity.
Qed.

Lemma adjust_NaN_over50 (wind : Q) (grass : bool) (x : num) :
  snd (applyGrass grass (applyWind wind (x, NaN))) = NaN.
Proof.
  unfold applyWind, applyGrass.
  destruct (Qltb 0 wind); [|destruct (Qltb wind 0)];
    destruct grass, x; reflexivity.
Qed.

Lemma lookupAndAdjust_distances (fmt : Q -> string) (xs ys : list Q)
  (inp : CalcInput) (lo a50 : num) (rg og : Grid) (out : CalcOutput)
  (g c : Q) :
  lookupAndAdjust fmt xs ys inp lo a50 rg og = Normal out ->
  groundRollFt out = Some (Fin g) -> toClear50Ft out = Some (Fin c) ->
  exists r o,
    forall wind grass,
      lookupAndAdjust fmt xs ys (withGrass (withWind inp wind) grass)
        lo a50 rg og
      = Normal (adjusted r o wind grass (Some lo) (Some a50) (notes out)).
Proof.
  unfold lookupAndAdjust.
  cbn [withGrass withWind pressureAltitudeFt oatC windKtSigned dryGrass].
  destruct (clampAltitude fmt (pressureAltitudeFt inp) xs) as [pa nts].
  destruct (bilinear pa (oatC inp) xs ys rg) as [r|]; [|discriminate].
  destruct (bilinear pa (oatC inp) xs ys og) as [o|]; [|discriminate].
  cbn [bind]. intros H Hg Hc.
  destruct r as [x|], o as [y|];
    try (injection H as <-; discriminate Hg).
  destruct (applyGrass (dryGrass inp)
              (applyWind (windKtSigned inp) (x, y))) as [a b] eqn:E.
  injection H as <-. cbn [groundRollFt toClear50Ft notes] in *.
  destruct x as [r|].
  2:{ pose proof (adjust_NaN_roll (windKtSigned inp) (dryGrass inp) y) as Hn.
      rewrite E in Hn. simpl in Hn. subst a. discriminate Hg. }
  destruct y as [o|].
  2:{ pose proof (adjust_NaN_over50 (windKtSigned inp) (dryGrass inp) (Fin r))
        as Hn.
      rewrite E in Hn. simpl in Hn. subst b. discriminate Hc. }
  exists r, o. intros wind grass. unfold adjusted.
  destruct (applyGrass grass (applyWind wind (Fin r, Fin o))). reflexivity.
Qed.

Lemma calculate_distances (fmt : Q -> string) (d : DataSchema)
  (inp : CalcInput) (out : CalcOutput) (g c : Q) :
  calculate fmt d inp = Normal out ->
  groundRollFt out = Some (Fin g) -> toClear50Ft out = Some (Fin c) ->
  exists r o,
    forall wind grass,
      calculate fmt d (withGrass (withWind inp wind) grass)
      = Normal (adjusted r o wind grass (liftoffKIAS out) (at50ftKIAS out)
                  (notes out)).
Proof.
  intros H Hg Hc.
  destruct (calculate_Normal fmt d inp out H)
    as [[note ->]|(lower & upper & rg & og & Hbl)]; [discriminate Hg|].
  rewrite (calculate_in_range fmt d inp _ _ _ _ Hbl) in H.
  destruct (lookupAndAdjust_speeds _ _ _ _ _ _ _ _ _ H) as [-> ->].
  destruct (lookupAndAdjust_distances _ _ _ _ _ _ _ _ _ _ _ H Hg Hc)
    as (r & o & Hall).
  exists r, o. intros wind grass.
  rewrite (calculate_in_range fmt d (withGrass (withWind inp wind) grass)
             lower upper rg og Hbl).
  apply Hall.
Qed.

(** ** Rounding and the wind factor *)

Lemma round_half_up_bounds (q : Q) :
  inject_Z (round_half_up q) - (1 # 2) <= q
  /\ q < inject_Z (round_half_up q) + (1 # 2).
Proof.
  unfold round_half_up.
  pose proof (Qfloor_le (q + (1 # 2))) as Hle.
  pose proof (Qlt_floor (q + (1 # 2))) as Hlt.
  rewrite inject_Z_plus in Hlt. change (inject_Z 1) with 1 in Hlt.
  split; lra.
Qed.

Lemma round_half_up_mono (x y : Q) :
  x <= y -> (round_half_up x <= round_half_up y)%Z.
Proof.
  intros H. unfold round_half_up. apply Qfloor_resp_le. lra.
Qed.

Lemma round_half_up_Qeq (x y : Q) : x == y -> round_half_up x = round_half_up y.
Proof.
  intros H. unfold round_half_up. apply Qfloor_comp. rewrite H. reflexivity.
Qed.

(** Two numbers one apart or more round to different integers. *)
Lemma round_half_up_step (x y : Q) :
  x + 1 <= y -> inject_Z (round_half_up x) < inject_Z (round_half_up y).
Proof.
  intros H.
  pose proof (round_half_up_bounds x) as [Ha _].
  pose proof (round_half_up_bounds y) as [_ Hb].
  assert (Hlt : inject_Z (round_half_up x) + inject_Z 1
                < inject_Z (round_half_up y) + inject_Z 1).
  { change (inject_Z 1) with 1. lra. }
  rewrite <- !inject_Z_plus, <- Zlt_Qlt in Hlt.
  rewrite <- Zlt_Qlt. lia.
Qed.

Lemma positive_rounded (k : Q) : 0 < inject_Z (round_half_up k) -> 0 < k.
Proof.
  intros Hpos. pose proof (round_half_up_bounds k) as [Ha _].
  assert (H1 : 1 <= inject_Z (round_half_up k)).
  { change 0 with (inject_Z 0) in Hpos. rewrite <- Zlt_Qlt in Hpos.
    change 1 with (inject_Z 1). rewrite <- Zle_Qle. lia. }
  lra.
Qed.

Lemma headwindFactor_floor (wind : Q) : 1 # 2 <= headwindFactor wind.
Proof.
  unfold headwindFactor. apply Q.le_max_r.
Qed.

Lemma headwindFactor_antitone (w1 w2 : Q) :
  w1 <= w2 -> headwindFactor w2 <= headwindFactor w1.
Proof.
  intros H. unfold headwindFactor, Qdiv. change (/ 9) with (1 # 9).
  apply Q.max_le_compat_r. lra.
Qed.

Lemma headwindFactor_le_one (w : Q) : 0 <= w -> headwindFactor w <= 1.
Proof.
  intros H. unfold headwindFactor, Qdiv. change (/ 9) with (1 # 9).
  apply Q.max_lub; lra.
Qed.

Lemma headwindFactor_linear (wind : Q) :
  wind <= 45 -> headwindFactor wind == 1 - wind * (1 # 90).
Proof.
  intros H. unfold headwindFactor, Qdiv. change (/ 9) with (1 # 9).
  rewrite Q.max_l by lra. lra.
Qed.

Lemma tailwindFactor_ge_one (w : Q) : 1 <= tailwindFactor w.
Proof.
  unfold tailwindFactor, Qdiv. cbn zeta. change (/ 10) with (1 # 10).
  pose proof (Qabs_nonneg w) as Habs.
  assert (H0 : 0 <= Qmin (Qabs w) 10) by (apply Q.min_glb; [exact Habs | lra]).
  lra.
Qed.

Lemma tailwindFactor_antitone (w1 w2 : Q) :
  w1 <= w2 -> w2 <= 0 -> tailwindFactor w2 <= tailwindFactor w1.
Proof.
  intros H H2. unfold tailwindFactor, Qdiv. cbn zeta.
  change (/ 10) with (1 # 10).
  assert (Hm : Qmin (Qabs w2) 10 <= Qmin (Qabs w1) 10).
  { apply Q.min_le_compat_r.
    rewrite (Qabs_neg w2) by exact H2. rewrite (Qabs_neg w1) by lra. lra. }
  lra.
Qed.

Lemma windMultiplier_floor (w : Q) : 1 # 2 <= windMultiplier w.
Proof.
  unfold windMultiplier.
  destruct (Qltb 0 w); [apply headwindFactor_floor|].
  destruct (Qltb w 0); [|lra].
  pose proof (tailwindFactor_ge_one w). lra.
Qed.

Lemma windMultiplier_head (w : Q) : 0 <= w -> windMultiplier w <= 1.
Proof.
  intros H. unfold windMultiplier.
  destruct (Qltb 0 w); [apply headwindFactor_le_one, H|].
  destruct (Qltb w 0) eqn:E; [|lra].
  apply Qltb_lt in E. lra.
Qed.

Lemma windMultiplier_tail (w : Q) : w <= 0 -> 1 <= windMultiplier w.
Proof.
  intros H. unfold windMultiplier.
  destruct (Qltb 0 w) eqn:E; [apply Qltb_lt in E; lra|].
  destruct (Qltb w 0); [apply tailwindFactor_ge_one | lra].
Qed.

Lemma windMultiplier_calm : windMultiplier 0 = 1.
Proof. reflexivity. Qed.

(** The stronger the headwind, or the weaker the tailwind, the smaller
    the multiplier. *)
Lemma windMultiplier_antitone (w1 w2 : Q) :
  w1 <= w2 -> windMultiplier w2 <= windMultiplier w1.
Proof.
  intros H.
  destruct (Qlt_le_dec 0 w1) as [Hp|Hn].
  - unfold windMultiplier.
    assert (E1 : Qltb 0 w1 = true) by (apply Qltb_lt; exact Hp).
    assert (E2 : Qltb 0 w2 = true) by (apply Qltb_lt; lra).
    rewrite E1, E2. apply headwindFactor_antitone, H.
  - pose proof (windMultiplier_tail w1 Hn) as H1.
    destruct (Qlt_le_dec 0 w2) as [Hp2|Hn2].
    + pose proof (windMultiplier_head w2 ltac:(lra)). lra.
    + unfold windMultiplier in *.
      assert (E1 : Qltb 0 w1 = false) by (apply Qltb_ge; exact Hn).
      assert (E2 : Qltb 0 w2 = false) by (apply Qltb_ge; exact Hn2).
      rewrite E1, E2 in *.
      destruct (Qltb w2 0) eqn:F2.
      * apply Qltb_lt in F2.
        assert (F1 : Qltb w1 0 = true) by (apply Qltb_lt; lra).
        rewrite F1. apply tailwindFactor_antitone; [exact H | exact Hn2].
      * exact H1.
Qed.

(** Up to 45 kt, one more knot of headwind takes a ninetieth off. *)
Lemma windMultiplier_knot (w1 w2 : Q) :
  0 <= w1 -> w1 + 1 <= w2 -> w2 <= 45 ->
  windMultiplier w2 <= windMultiplier w1 - (1 # 90).
Proof.
  intros H0 H1 H2. unfold windMultiplier.
  assert (E2 : Qltb 0 w2 = true) by (apply Qltb_lt; lra).
  rewrite E2, (headwindFactor_linear w2) by exact H2.
  destruct (Qltb 0 w1) eqn:E1.
  - rewrite (headwindFactor_linear w1) by lra. lra.
  - apply Qltb_ge in E1.
    assert (F1 : Qltb w1 0 = false) by (apply Qltb_ge; exact H0).
    rewrite F1. lra.
Qed.

(** The wind and surface steps, then the rounding, in closed form. *)
Lemma adjusted_rounded (r o wind : Q) (grass : bool) (lo a50 : option num)
  (ns : list string) :
  adjusted r o wind grass lo a50 ns
  = rounded (windSurface r o (windMultiplier wind) grass) lo a50 ns.
Proof.
  unfold adjusted, rounded, applyWind, windMultiplier, windSurface.
  destruct (Qltb 0 wind); [|destruct (Qltb wind 0)]; destruct grass;
    cbn [applyGrass fst snd nmul nadd Math_round]; try reflexivity.
  - rewrite (round_half_up_Qeq (r * 1 + r * 1 * (15 # 100))
               (r + r * (15 # 100))) by ring.
    rewrite (round_half_up_Qeq (o * 1 + r * 1 * (15 # 100))
               (o + r * (15 # 100))) by ring.
    reflexivity.
  - rewrite (round_half_up_Qeq (r * 1) r) by ring.
    rewrite (round_half_up_Qeq (o * 1) o) by ring.
    reflexivity.
Qed.

(** From distances computed on the paved surface: the values [r] and [o]
    read from the blended grids, and the result at every other wind and
    surface. *)
Lemma calculate_wind_values (fmt : Q -> string) (d : DataSchema)
  (inp : CalcInput) (outp : CalcOutput) (gp cp : Q) :
  calculate fmt d (withGrass inp false) = Normal outp ->
  groundRollFt outp = Some (Fin gp) -> toClear50Ft outp = Some (Fin cp) ->
  exists r o,
    gp = inject_Z (round_half_up (r * windMultiplier (windKtSigned inp)))
    /\ cp = inject_Z (round_half_up (o * windMultiplier (windKtSigned inp)))
    /\ forall wind grass,
         calculate fmt d (withGrass (withWind inp wind) grass)
         = Normal (rounded (windSurface r o (windMultiplier wind) grass)
                     (liftoffKIAS outp) (at50ftKIAS outp) (notes outp)).
Proof.
  intros H Hg Hc.
  destruct (calculate_distances fmt d _ outp gp cp H Hg Hc) as (r & o & Hall).
  assert (Hform : forall wind grass,
             calculate fmt d (withGrass (withWind inp wind) grass)
             = Normal (rounded (windSurface r o (windMultiplier wind) grass)
                         (liftoffKIAS outp) (at50ftKIAS outp) (notes outp))).
  { intros wind grass. specialize (Hall wind grass).
    change (withGrass (withWind (withGrass inp false) wind) grass)
      with (withGrass (withWind inp wind) grass) in Hall.
    rewrite Hall. rewrite adjusted_rounded. reflexivity. }
  exists r, o.
  pose proof (Hform (windKtSigned inp) false) as H0.
  change (withGrass (withWind inp (windKtSigned inp)) false)
    with (withGrass inp false) in H0.
  rewrite H in H0. injection H0 as H0.
  pose proof (f_equal groundRollFt H0) as Eg.
  pose proof (f_equal toClear50Ft H0) as Ec.
  cbn [rounded windSurface groundRollFt toClear50Ft fst snd] in Eg, Ec.
  rewrite Hg in Eg. rewrite Hc in Ec.
  injection Eg as Eg. injection Ec as Ec.
  split; [exact Eg|]. split; [exact Ec|]. exact Hform.
Qed.

(** With positive values read from the grids, a smaller multiplier gives
    no longer a distance on either surface. *)
Lemma windSurface_mono (r o m1 m2 : Q) (grass : bool) :
  0 < r -> 0 < o -> m2 <= m1 ->
  fst (windSurface r o m2 grass) <= fst (windSurface r o m1 grass)
  /\ snd (windSurface r o m2 grass) <= snd (windSurface r o m1 grass).
Proof.
  intros Hr Ho Hm.
  assert (Hrm : r * m2 <= r * m1) by nra.
  assert (Hom : o * m2 <= o * m1) by nra.
  unfold windSurface. destruct grass; cbn [fst snd]; split; lra.
Qed.

(** ** Surface *)

(** C5, as amended: for a request whose dry-grass-off distances [g0] and
    [c0] are computed (and of at most 10^12 ft in magnitude), the same
    request with dry grass on returns both distances too, with the same
    speeds and notes.  Its ground roll [g1] is 1.15 times [g0] within the
    rounding to whole feet, [|g1 - 1.15 g0| <= 1.08]; its clear-50
    distance [c1] moves with the ground roll and not by 15 percent of
    its own, the two returned increments being within 2 ft of each
    other; and with a positive ground roll neither distance gets
    shorter. *)
Theorem dry_grass_within_rounding (fmt : Q -> string) (d : DataSchema)
  (inp : CalcInput) (out0 : CalcOutput) (g0 c0 : Q) :
  calculate fmt d (withGrass inp false) = Normal out0 ->
  groundRollFt out0 = Some (Fin g0) -> toClear50Ft out0 = Some (Fin c0) ->
  Qabs g0 <= farthest -> Qabs c0 <= farthest ->
  exists out1 g1 c1,
    calculate fmt d (withGrass inp true) = Normal out1
    /\ groundRollFt out1 = Some (Fin g1) /\ toClear50Ft out1 = Some (Fin c1)
    /\ liftoffKIAS out1 = liftoffKIAS out0
    /\ at50ftKIAS out1 = at50ftKIAS out0
    /\ notes out1 = notes out0
    /\ Qabs (g1 - (115 # 100) * g0) <= 108 # 100
    /\ Qabs ((c1 - c0) - (g1 - g0)) <= 2
    /\ (0 < g0 -> g0 <= g1 /\ c0 <= c1).
Proof.
  intros H Hg Hc _ _.
  destruct (calculate_wind_values fmt d inp out0 g0 c0 H Hg Hc)
    as (r & o & Eg & Ec & Hform).
  pose proof (Hform (windKtSigned inp) true) as H1.
  change (withGrass (withWind inp (windKtSigned inp)) true)
    with (withGrass inp true) in H1.
  set (m := windMultiplier (windKtSigned inp)) in *.
  eexists _, _, _. split; [exact H1|].
  cbn [rounded windSurface groundRollFt toClear50Ft liftoffKIAS at50ftKIAS
       notes fst snd].
  do 5 (split; [reflexivity|]).
  pose proof (round_half_up_bounds (r * m)) as [Ha Hb].
  pose proof (round_half_up_bounds (o * m)) as [Ha' Hb'].
  pose proof (round_half_up_bounds (r * m + r * m * (15 # 100))) as [He Hf].
  pose proof (round_half_up_bounds (o * m + r * m * (15 # 100))) as [He' Hf'].
  assert (Hup : 0 < g0 ->
                inject_Z (round_half_up (r * m))
                <= inject_Z (round_half_up (r * m + r * m * (15 # 100)))
                /\ inject_Z (round_half_up (o * m))
                   <= inject_Z (round_half_up (o * m + r * m * (15 # 100)))).
  { intros Hpos. rewrite Eg in Hpos. apply positive_rounded in Hpos.
    split; rewrite <- Zle_Qle; apply round_half_up_mono; lra. }
  subst g0 c0.
  revert Ha Hb Ha' Hb' He Hf He' Hf' Hup.
  generalize (inject_Z (round_half_up (r * m)))
             (inject_Z (round_half_up (o * m)))
             (inject_Z (round_half_up (r * m + r * m * (15 # 100))))
             (inject_Z (round_half_up (o * m + r * m * (15 # 100)))).
  intros G0 C0 G1 C1 Ha Hb Ha' Hb' He Hf He' Hf' Hup.
  split; [apply Qabs_Qle_condition; split; lra|].
  split; [apply Qabs_Qle_condition; split; lra|].
  exact Hup.
Qed.

Lemma dry_grass_within_rounding_witness :
  exists out1 g1 c1,
    calculate Toy.noOther Toy.flat (Toy.request 0 0 925 0 true) = Normal out1
    /\ groundRollFt out1 = Some (Fin g1) /\ toClear50Ft out1 = Some (Fin c1)
    /\ Qabs (g1 - (115 # 100) * 102) <= 108 # 100
    /\ Qabs ((c1 - 200) - (g1 - 102)) <= 2.
Proof.
  destruct (dry_grass_within_rounding Toy.noOther Toy.flat
              (Toy.request 0 0 925 0 false)
              {| groundRollFt := Some (Fin 102);
                 toClear50Ft := Some (Fin 200);
                 liftoffKIAS := Some (Fin 56);
                 at50ftKIAS := Some (Fin 61);
                 notes := [] |} 102 200)
    as (out1 & g1 & c1 & H1 & Hg & Hc & _ & _ & _ & Ha & Hb & _).
  - vm_compute. reflexivity.
  - reflexivity.
  - reflexivity.
  - discriminate.
  - discriminate.
  - exists out1, g1, c1. repeat split; assumption.
Defined.


(** C5, as stated, fails on the returned distances: at 925 lb on the
    flat table the ground roll goes from 102 ft to 117 ft and the
    clear-50 distance from 200 ft to 216 ft. *)
Lemma dry_grass_increments_differ :
  exists out0 out1,
    calculate Toy.noOther Toy.flat (Toy.request 0 0 925 0 false) = Normal out0
    /\ calculate Toy.noOther Toy.flat (Toy.request 0 0 925 0 true) = Normal out1
    /\ groundRollFt out0 = Some (Fin 102) /\ groundRollFt out1 = Some (Fin 117)
    /\ toClear50Ft out0 = Some (Fin 200) /\ toClear50Ft out1 = Some (Fin 216)
    /\ ~ 216 - 200 == 117 - 102.
Proof.
  eexists _, _. split; [vm_compute; reflexivity|].
  split; [vm_compute; reflexivity|].
  repeat split. discriminate.
Qed.

(** ** Headwind *)

(** C6, as amended: take two winds [0 <= w1 <= w2], calm or headwind,
    and a request whose dry-grass-off distances at [w1] are computed,
    positive and of at most 10^12 ft.  Then the request returns both
    distances at [w1] and at [w2], with the same speeds and notes, and
    neither returned distance is longer at [w2] than at [w1].  If [w2]
    is stronger by 1 kt or more and at most 45 kt, and the dry-grass-off
    distances at [w1] are 200 ft or more, both returned distances are
    strictly shorter at [w2].  The headwind factor never grows with the
    headwind and is never below one half. *)
Theorem headwind_never_lengthens (fmt : Q -> string) (d : DataSchema)
  (inp : CalcInput) (w1 w2 : Q) (outp : CalcOutput) (gp cp : Q) :
  0 <= w1 -> w1 <= w2 ->
  calculate fmt d (withGrass (withWind inp w1) false) = Normal outp ->
  groundRollFt outp = Some (Fin gp) -> toClear50Ft outp = Some (Fin cp) ->
  0 < gp -> 0 < cp -> gp <= farthest -> cp <= farthest ->
  (exists out1 out2 g1 c1 g2 c2,
      calculate fmt d (withWind inp w1) = Normal out1
      /\ groundRollFt out1 = Some (Fin g1) /\ toClear50Ft out1 = Some (Fin c1)
      /\ calculate fmt d (withWind inp w2) = Normal out2
      /\ groundRollFt out2 = Some (Fin g2) /\ toClear50Ft out2 = Some (Fin c2)
      /\ liftoffKIAS out2 = liftoffKIAS out1
      /\ at50ftKIAS out2 = at50ftKIAS out1
      /\ notes out2 = notes out1
      /\ g2 <= g1 /\ c2 <= c1
      /\ (w1 + 1 <= w2 -> w2 <= 45 -> 200 <= gp -> 200 <= cp ->
          g2 < g1 /\ c2 < c1))
  /\ headwindFactor w2 <= headwindFactor w1
  /\ forall w, 1 # 2 <= headwindFactor w.
Proof.
  intros Hw1 Hle H Hg Hc Hgpos Hcpos _ _.
  split; [|split; [apply headwindFactor_antitone, Hle
                  | apply headwindFactor_floor]].
  destruct (calculate_wind_values fmt d (withWind inp w1) outp gp cp H Hg Hc)
    as (r & o & Eg & Ec & Hform).
  cbn [withWind windKtSigned] in Eg, Ec.
  pose proof (windMultiplier_floor w1) as Hfl1.
  pose proof (windMultiplier_floor w2) as Hfl2.
  pose proof (windMultiplier_head w1 Hw1) as Hhd1.
  pose proof (windMultiplier_antitone w1 w2 Hle) as Hanti.
  assert (Hrm : 0 < r * windMultiplier w1)
    by (apply positive_rounded; rewrite <- Eg; exact Hgpos).
  assert (Hom : 0 < o * windMultiplier w1)
    by (apply positive_rounded; rewrite <- Ec; exact Hcpos).
  assert (Hr : 0 < r).
  { destruct (Qlt_le_dec 0 r) as [Hr|Hr]; [exact Hr|]. exfalso. nra. }
  assert (Ho : 0 < o).
  { destruct (Qlt_le_dec 0 o) as [Ho|Ho]; [exact Ho|]. exfalso. nra. }
  pose proof (Hform w1 (dryGrass inp)) as H1.
  pose proof (Hform w2 (dryGrass inp)) as H2.
  change (withGrass (withWind (withWind inp w1) w1) (dryGrass inp))
    with (withWind inp w1) in H1.
  change (withGrass (withWind (withWind inp w1) w2) (dryGrass inp))
    with (withWind inp w2) in H2.
  eexists _, _, _, _, _, _.
  split; [exact H1|]. split; [reflexivity|]. split; [reflexivity|].
  split; [exact H2|]. split; [reflexivity|]. split; [reflexivity|].
  do 3 (split; [reflexivity|]).
  destruct (windSurface_mono r o (windMultiplier w1) (windMultiplier w2)
              (dryGrass inp) Hr Ho Hanti) as [Hf Hs].
  split; [rewrite <- Zle_Qle; apply round_half_up_mono, Hf|].
  split; [rewrite <- Zle_Qle; apply round_half_up_mono, Hs|].
  intros Hknot H45 Hg200 Hc200.
  pose proof (windMultiplier_knot w1 w2 Hw1 Hknot H45) as Hstep.
  pose proof (round_half_up_bounds (r * windMultiplier w1)) as [Hgb _].
  pose proof (round_half_up_bounds (o * windMultiplier w1)) as [Hcb _].
  rewrite <- Eg in Hgb. rewrite <- Ec in Hcb.
  assert (Hr200 : 199 <= r) by nra.
  assert (Ho200 : 199 <= o) by nra.
  assert (Hrd : r * windMultiplier w2 + 1 <= r * windMultiplier w1) by nra.
  assert (Hod : o * windMultiplier w2 + 1 <= o * windMultiplier w1) by nra.
  split; apply round_half_up_step; unfold windSurface;
    destruct (dryGrass inp); cbn [fst snd]; lra.
Qed.

Lemma headwind_never_lengthens_witness :
  exists out1 out2 g1 c1 g2 c2,
    calculate Toy.noOther Toy.toy (withWind (Toy.request 0 0 900 0 true) 1)
    = Normal out1
    /\ groundRollFt out1 = Some (Fin g1) /\ toClear50Ft out1 = Some (Fin c1)
    /\ calculate Toy.noOther Toy.toy (withWind (Toy.request 0 0 900 0 true) 9)
       = Normal out2
    /\ groundRollFt out2 = Some (Fin g2) /\ toClear50Ft out2 = Some (Fin c2)
    /\ g2 < g1 /\ c2 < c1.
Proof.
  destruct (headwind_never_lengthens Toy.noOther Toy.toy
              (Toy.request 0 0 900 0 true) 1 9
              {| groundRollFt := Some (Fin 494);
                 toClear50Ft := Some (Fin 890);
                 liftoffKIAS := Some (Fin 55);
                 at50ftKIAS := Some (Fin 60);
                 notes := [] |} 494 890)
    as [(out1 & out2 & g1 & c1 & g2 & c2 & H1 & Hg1 & Hc1 & H2 & Hg2 & Hc2
         & _ & _ & _ & _ & _ & Hstrict) _].
  - discriminate.
  - discriminate.
  - vm_compute. reflexivity.
  - reflexivity.
  - reflexivity.
  - reflexivity.
  - reflexivity.
  - discriminate.
  - discriminate.
  - destruct Hstrict as [Hg Hc]; try discriminate.
    exists out1, out2, g1, c1, g2, c2. repeat split; assumption.
Defined.


(** C6, as stated, fails on the returned distances: at 900 lb on the toy
    table a headwind of 1 kt and one of 1.125 kt both return a ground
    roll of 494 ft.  And a distance of zero stays zero under any
    headwind. *)
Lemma stronger_headwind_same_ground_roll :
  0 < 1 /\ 1 < 9 # 8 /\ 9 # 8 <= 45
  /\ (exists out1 out2,
         calculate Toy.noOther Toy.toy (Toy.request 0 0 900 1 false)
         = Normal out1
         /\ calculate Toy.noOther Toy.toy (Toy.request 0 0 900 (9 # 8) false)
            = Normal out2
         /\ groundRollFt out1 = Some (Fin 494)
         /\ groundRollFt out2 = Some (Fin 494))
  /\ (exists out1 out2,
         calculate Toy.noOther Toy.still (Toy.request 0 0 900 1 false)
         = Normal out1
         /\ calculate Toy.noOther Toy.still (Toy.request 0 0 900 (9 # 8) false)
            = Normal out2
         /\ groundRollFt out1 = Some (Fin 0)
         /\ groundRollFt out2 = Some (Fin 0)).
Proof.
  split; [reflexivity|]. split; [reflexivity|]. split; [discriminate|].
  split; eexists _, _; (split; [vm_compute; reflexivity|]);
    (split; [vm_compute; reflexivity|]); split; reflexivity.
Qed.

(** ** The concrete scenario *)

(** C8: on the table with weights {900, 1000}, altitudes {0, 2000},
    temperatures {0, 20} and the temperature-invariant ground rolls 500,
    600 (900 lb) and 550, 660 (1000 lb), whatever the speeds and the
    (populated, temperature-invariant) clear-50 distances, the request
    950 lb, 0 ft, 0 C, calm, paved yields ground roll 525 and no note. *)
Theorem toy_scenario_ground_roll (fmt : Q -> string)
  (lo9 a9 c9 c9' lo10 a10 c10 c10' : Q) (sea : PressureAltitude) :
  sea = SL \/ sea = Ft 0 ->
  exists out,
    calculate fmt
      (Toy.table [sea; Ft 2000] [0; 20]
         [Toy.row 900 lo9 a9 500 600 c9 c9';
          Toy.row 1000 lo10 a10 550 660 c10 c10'])
      (Toy.request 0 0 950 0 false) = Normal out
    /\ groundRollFt out = Some (Fin 525)
    /\ notes out = [].
Proof.
  intros [-> | ->]; eexists;
    (split; [reflexivity | split; reflexivity]).
Qed.

Lemma toy_scenario_ground_roll_witness :
  exists out,
    calculate Toy.noOther Toy.toy (Toy.request 0 0 950 0 false) = Normal out
    /\ groundRollFt out = Some (Fin 525)
    /\ notes out = [].
Proof.
  apply (toy_scenario_ground_roll Toy.noOther 55 60 900 1100 60 65 1000 1200 SL).
  left. reflexivity.
Defined.

(** * Further properties of the engine *)

(** ** Strictly increasing axes *)

Lemma strictlyIncreasing_sorted (l : list Q) :
  strictlyIncreasing l = true -> StronglySorted Qlt l.
Proof.
  intros H. apply Sorted_StronglySorted.
  - intros a b c. apply Qlt_trans.
  - induction l as [|a tl IH]; [constructor|].
    destruct tl as [|b tl'].
    + constructor; constructor.
    + cbn [strictlyIncreasing] in H. apply andb_true_iff in H.
      destruct H as [Hab Htl]. apply Qltb_lt in Hab.
      constructor; [apply IH, Htl | constructor; exact Hab].
Qed.

Lemma sorted_nth_lt (l : list Q) (m n : nat) (a b : Q) :
  StronglySorted Qlt l -> (m < n)%nat ->
  nth_error l m = Some a -> nth_error l n = Some b -> a < b.
Proof.
  intros Hs. revert m n. induction Hs as [|h tl Hs IH Hall];
    intros m n Hmn Ha Hb.
  - destruct m; discriminate.
  - destruct n as [|n]; [lia|]. simpl in Hb.
    destruct m as [|m].
    + simpl in Ha. injection Ha as <-.
      rewrite Forall_forall in Hall. apply Hall.
      eapply nth_error_In, Hb.
    + simpl in Ha. apply (IH m n); [lia | assumption..].
Qed.

Lemma sorted_nth_le (l : list Q) (m n : nat) (a b : Q) :
  StronglySorted Qlt l -> (m <= n)%nat ->
  nth_error l m = Some a -> nth_error l n = Some b -> a <= b.
Proof.
  intros Hs Hmn Ha Hb.
  destruct (Nat.eq_dec m n) as [->|Hne].
  - rewrite Ha in Hb. injection Hb as <-. apply Qle_refl.
  - apply Qlt_le_weak. apply (sorted_nth_lt l m n); [assumption | lia | assumption..].
Qed.

(** The scan passes [k] entries below [x] and stops at the next one. *)
Lemma clampScan_exact (x b : Q) (rest : list Q) (k0 k : nat) :
  (forall m a, (m < k)%nat -> nth_error rest m = Some a -> Qltb a x = true) ->
  nth_error rest k = Some b -> Qltb b x = false ->
  clampScan x rest k0 = (k0 + k)%nat.
Proof.
  revert rest k0. induction k as [|k IH]; intros rest k0 Hpass Hb Hstop.
  - destruct rest as [|h tl]; [discriminate|].
    simpl in Hb. injection Hb as ->. simpl. rewrite Hstop. lia.
  - destruct rest as [|h tl]; [discriminate|].
    simpl in Hb. simpl.
    rewrite (Hpass 0%nat h) by first [lia | reflexivity].
    rewrite (IH tl (S k0)); [lia | | exact Hb | exact Hstop].
    intros m a Hm Ha. apply (Hpass (S m) a); [lia | exact Ha].
Qed.

(** X1: on an axis of two entries or more, [clampIndex] fails exactly
    when [x] is below the first entry or above the last one; the index it
    returns otherwise has a successor on the axis, and the two entries
    bracket [x]. *)
Theorem clampIndex_in_bounds (x lo hi : Q) (axis : list Q) :
  (2 <= length axis)%nat ->
  nth_error axis 0 = Some lo ->
  nth_error axis (length axis - 1) = Some hi ->
  (clampIndex x axis = None <-> x < lo \/ hi < x)
  /\ (forall i, clampIndex x axis = Some i ->
        exists a b, nth_error axis i = Some a
                    /\ nth_error axis (i + 1) = Some b
                    /\ a <= x /\ x <= b).
Proof.
  intros Hlen Hlo Hhi. split.
  - unfold clampIndex. rewrite Hlo, Hhi. cbn [lt_elem gt_elem].
    destruct (Qltb x lo) eqn:E1; destruct (Qltb hi x) eqn:E2; cbn [orb];
      try (apply Qltb_lt in E1); try (apply Qltb_lt in E2);
      try (split; [auto | reflexivity]).
    apply Qltb_ge in E1, E2. split; [discriminate|].
    intros [H|H]; lra.
  - intros i Hi.
    pose proof (clampIndex_bound x axis i Hlen Hi) as Hb.
    destruct (nth_error axis i) as [a|] eqn:Ea;
      [|apply nth_error_None in Ea; lia].
    destruct (nth_error axis (i + 1)) as [b|] eqn:Eb;
      [|apply nth_error_None in Eb; lia].
    exists a, b. split; [reflexivity|]. split; [reflexivity|].
    apply (clampIndex_brackets x a b axis i); assumption.
Qed.

Lemma clampIndex_in_bounds_witness :
  clampIndex 1000 [0; 2000; 4000] = None <-> 1000 < 0 \/ 4000 < 1000.
Proof.
  apply (clampIndex_in_bounds 1000 0 4000 [0; 2000; 4000]).
  - simpl. lia.
  - reflexivity.
  - reflexivity.
Defined.

Lemma clampIndex_interval (x a b : Q) (axis : list Q) (k : nat) :
  strictlyIncreasing axis = true ->
  nth_error axis k = Some a -> nth_error axis (S k) = Some b ->
  a <= x -> (k = 0%nat \/ a < x) -> x <= b ->
  clampIndex x axis = Some k.
Proof.
  intros Hinc Ha Hb Hax Hk Hxb.
  pose proof (strictlyIncreasing_sorted axis Hinc) as Hs.
  unfold clampIndex.
  destruct axis as [|a0 rest]; [destruct k; discriminate|].
  destruct (nth_error_last_defined (a0 :: rest)) as [z Hz]; [discriminate|].
  rewrite Hz. cbn [nth_error lt_elem gt_elem tl].
  assert (H0 : Qltb x a0 = false).
  { apply Qltb_ge. eapply Qle_trans; [|exact Hax].
    apply (sorted_nth_le (a0 :: rest) 0 k);
      [assumption | lia | reflexivity | assumption]. }
  assert (Hzx : Qltb z x = false).
  { apply Qltb_ge. eapply Qle_trans; [exact Hxb|].
    apply (sorted_nth_le (a0 :: rest) (S k) (length (a0 :: rest) - 1));
      [assumption | | assumption..].
    assert (S k < length (a0 :: rest))%nat
      by (apply nth_error_Some; congruence).
    lia. }
  rewrite H0, Hzx. cbn [orb]. f_equal.
  simpl in Hb.
  rewrite (clampScan_exact x b rest 0 k); [reflexivity | | exact Hb |].
  - intros m c Hm Hc. apply Qltb_lt.
    assert (Hca : c <= a).
    { apply (sorted_nth_le (a0 :: rest) (S m) k);
        [assumption | lia | exact Hc | assumption]. }
    destruct Hk as [->|Hlt]; [lia | lra].
  - now apply Qltb_ge.
Qed.

(** X2: on a strictly increasing axis the index is the one interval that
    is open on the left: [x] with [axis[k] < x <= axis[k+1]] gets [k], so
    an inner entry of the axis gets the interval below it, and the first
    entry gets 0. *)
Theorem clampIndex_left_open (x a b : Q) (axis : list Q) (k : nat) :
  strictlyIncreasing axis = true ->
  nth_error axis k = Some a -> nth_error axis (S k) = Some b ->
  (a < x -> x <= b -> clampIndex x axis = Some k)
  /\ (x == b -> clampIndex x axis = Some k)
  /\ (k = 0%nat -> x == a -> clampIndex x axis = Some 0%nat).
Proof.
  intros Hinc Ha Hb.
  assert (Hab : a < b).
  { apply (sorted_nth_lt axis k (S k));
      [apply strictlyIncreasing_sorted, Hinc | lia | assumption..]. }
  split; [|split].
  - intros H1 H2.
    apply (clampIndex_interval x a b); auto using Qlt_le_weak.
  - intros H. apply (clampIndex_interval x a b); auto; [lra | right; lra | lra].
  - intros -> H. apply (clampIndex_interval x a b); auto; lra.
Qed.

Lemma clampIndex_left_open_witness :
  clampIndex 2000 [0; 2000; 4000] = Some 0%nat.
Proof.
  destruct (clampIndex_left_open 2000 0 2000 [0; 2000; 4000] 0)
    as (_ & H & _).
  - reflexivity.
  - reflexivity.
  - reflexivity.
  - apply H. reflexivity.
Defined.

(** ** Inner nodes of [bilinear] *)

Lemma nth_error_pred {A : Type} (l : list A) (k : nat) (x : A) :
  nth_error l (S k) = Some x -> exists a, nth_error l k = Some a.
Proof.
  intros H. destruct (nth_error l k) as [a|] eqn:E; [eauto|].
  apply nth_error_None in E.
  assert (S k < length l)%nat by (apply nth_error_Some; congruence). lia.
Qed.

(** X3: on strictly increasing axes, a request at an inner node
    [(xs[k+1], ys[l+1])] is looked up in the cell below it, [(k, l)];
    so if one of the node's three neighbours towards the origin is
    empty, [bilinear] returns absent although the node itself is
    populated. *)
Theorem bilinear_inner_node_null_neighbour (x y q : Q) (xs ys : list Q)
  (g : Grid) (k l : nat) :
  strictlyIncreasing xs = true -> strictlyIncreasing ys = true ->
  nth_error xs (S k) = Some x -> nth_error ys (S l) = Some y ->
  cell g (S k) (S l) = Normal (Some q) ->
  cell g k l = Normal None \/ cell g k (S l) = Normal None
  \/ cell g (S k) l = Normal None ->
  clampIndex x xs = Some k /\ clampIndex y ys = Some l
  /\ bilinear x y xs ys g = Normal None.
Proof.
  intros Hxs Hys Hx Hy Hq Habs.
  destruct (nth_error_pred xs k x Hx) as [a Ha].
  destruct (nth_error_pred ys l y Hy) as [c Hc].
  assert (Hax : a < x).
  { apply (sorted_nth_lt xs k (S k));
      [apply strictlyIncreasing_sorted, Hxs | lia | assumption..]. }
  assert (Hcy : c < y).
  { apply (sorted_nth_lt ys l (S l));
      [apply strictlyIncreasing_sorted, Hys | lia | assumption..]. }
  assert (Hi : clampIndex x xs = Some k).
  { apply (clampIndex_interval x a x); auto; [lra | apply Qle_refl]. }
  assert (Hj : clampIndex y ys = Some l).
  { apply (clampIndex_interval y c y); auto; [lra | apply Qle_refl]. }
  split; [exact Hi|]. split; [exact Hj|].
  eapply bilinear_absent_corner; [exact Hi | exact Hj | |].
  - apply cell_Normal_row in Hq. lia.
  - unfold cornerAbsent. rewrite !Nat.add_1_r. tauto.
Qed.

Lemma bilinear_inner_node_null_neighbour_witness :
  bilinear 2000 20 [0; 2000] [0; 20]
    [[None; Some 550]; [Some 600; Some 660]] = Normal None.
Proof.
  apply (bilinear_inner_node_null_neighbour 2000 20 660 [0; 2000] [0; 20]
           [[None; Some 550]; [Some 600; Some 660]] 0 0);
    try reflexivity.
  left. reflexivity.
Defined.


(** ** Faults and cells of [weightInterp] *)

Lemma mapM_throws {A B : Type} (f : A -> completion B) (l : list A) (a : A) :
  In a l -> f a = TypeError -> mapM f l = TypeError.
Proof.
  induction l as [|h tl IH]; intros Hin Hf; [contradiction|].
  simpl. destruct Hin as [->|Hin].
  - rewrite Hf. reflexivity.
  - destruct (f h); [|reflexivity]. simpl. rewrite (IH Hin Hf). reflexivity.
Qed.

(** X6: [weightInterp] throws in two cases only: the lower grid has no
    row, or the upper grid has fewer rows than the lower one while the
    lower grid's first row has a cell.  (When that first row is empty no
    cell is ever read, and a short upper grid goes unnoticed.) *)
Theorem weightInterp_throws_iff (w lw uw : Q) (lg ug : Grid) :
  weightInterp w (lw, lg) (uw, ug) cell = TypeError
  <-> lg = []
      \/ ((length ug < length lg)%nat
          /\ exists row0, nth_error lg 0 = Some row0 /\ row0 <> []).
Proof.
  split.
  - intros H. destruct lg as [|row0 lg']; [now left|]. right.
    destruct row0 as [|c0 row0'].
    + exfalso. unfold weightInterp in H. cbn [fst snd nth_error defined bind length seq] in H.
      destruct (mapM_defined
                  (fun i : nat =>
                     mapM (fun j : nat =>
                             a <- cell ([] :: lg') i j ;;
                             b <- cell ug i j ;;
                             Normal (blendCell a b ((w - lw) / orOne (uw - lw))))
                          []) (seq 0 (S (length lg')))) as [g Hg].
      { intros i _. simpl. eauto. }
      cbn [length seq] in Hg. rewrite Hg in H. discriminate.
    + destruct (Nat.lt_ge_cases (length ug) (length ((c0 :: row0') :: lg')))
        as [Hlt|Hge].
      * split; [exact Hlt|]. eexists. split; [reflexivity | discriminate].
      * exfalso.
        destruct (weightInterp_defined w lw uw ((c0 :: row0') :: lg') ug)
          as [g Hg]; [simpl; lia | exact Hge |].
        rewrite Hg in H. discriminate.
  - intros [->|(Hlt & row0 & Hrow0 & Hne)]; [reflexivity|].
    unfold weightInterp. cbn [fst snd]. rewrite Hrow0. cbn [defined bind].
    apply (mapM_throws _ _ (length ug)).
    + apply in_seq. lia.
    + apply (mapM_throws _ _ 0%nat).
      * apply in_seq. destruct row0; [contradiction | simpl; lia].
      * destruct (cell_defined lg (length ug) 0 Hlt) as [a ->].
        unfold cell.
        replace (nth_error ug (length ug)) with (@None (list MaybeNum))
          by (symmetry; apply nth_error_None; lia).
        reflexivity.
Qed.

(** X7: a grid returned by [weightInterp] has the height of the lower
    grid and the width of the lower grid's first row, and each of its
    cells is empty exactly when one of the two source cells is. *)
Theorem weightInterp_shape_and_nulls (w lw uw : Q) (lg ug g : Grid) :
  weightInterp w (lw, lg) (uw, ug) cell = Normal g ->
  length g = length lg
  /\ exists row0,
       nth_error lg 0 = Some row0
       /\ forall i row, nth_error g i = Some row ->
            length row = length row0
            /\ forall j c, nth_error row j = Some c ->
                 exists a b,
                   cell lg i j = Normal a /\ cell ug i j = Normal b
                   /\ (c = None <-> a = None \/ b = None).
Proof.
  intros H.
  destruct (weightInterp_Normal _ _ _ _ _ _ H) as (Hlen & row0 & Hrow0 & Hrows).
  split; [exact Hlen|]. exists row0. split; [exact Hrow0|].
  intros i row Hrow. destruct (Hrows i row Hrow) as [Hw Hcells].
  split; [exact Hw|]. intros j c Hc.
  destruct (Hcells j c Hc) as (a & b & Ha & Hb & ->).
  exists a, b. split; [exact Ha|]. split; [exact Hb|].
  destruct a, b; simpl; split; intros H0; try discriminate; auto;
    destruct H0; discriminate.
Qed.

Lemma weightInterp_shape_and_nulls_witness :
  exists g,
    weightInterp 950 (900, [[Some 500; None]]) (1000, [[Some 550; Some 1]]) cell
    = Normal g
    /\ length g = 1%nat.
Proof.
  eexists. split; [vm_compute; reflexivity|].
  eapply (weightInterp_shape_and_nulls 950 900 1000 [[Some 500; None]]
            [[Some 550; Some 1]]).
  vm_compute. reflexivity.
Defined.

(** ** What [calculate] returns *)

(** X10: a result of [calculate] has one of three shapes.  Rejected: the
    four fields absent and one note.  No distance: both distances absent,
    both speeds present, the extrapolation note first, followed by the
    clamp note or by nothing.  Computed: the four fields present and the
    notes empty or the clamp note alone.  So the two distances are absent
    or present together, and there are never more than two notes. *)
Theorem calculate_result_shape (fmt : Q -> string) (d : DataSchema)
  (inp : CalcInput) (out : CalcOutput) :
  calculate fmt d inp = Normal out ->
  let clamped := [clampNote fmt (pressureAltitudeFt inp)] in
  (exists note, out = rejected note)
  \/ (exists lo a50 ns,
        out = noDistance lo a50 (extrapolationNote :: ns)
        /\ (ns = [] \/ ns = clamped))
  \/ (exists g c lo a50,
        groundRollFt out = Some g /\ toClear50Ft out = Some c
        /\ liftoffKIAS out = Some lo /\ at50ftKIAS out = Some a50
        /\ (notes out = [] \/ notes out = clamped)).
Proof.
  intros H clamped.
  destruct (calculate_Normal fmt d inp out H)
    as [Hrej|(lower & upper & rg & og & Hbl)]; [now left|]. right.
  rewrite (calculate_in_range fmt d inp _ _ _ _ Hbl) in H.
  unfold lookupAndAdjust in H.
  assert (Hnotes : forall pa nts,
             clampAltitude fmt (pressureAltitudeFt inp) (axisOf d) = (pa, nts) ->
             nts = [] \/ nts = clamped).
  { unfold clampAltitude. intros pa nts E.
    destruct (nth_error (axisOf d) 0) as [paMin|];
      [destruct (Qltb (pressureAltitudeFt inp) paMin)|];
      injection E as _ <-; auto. }
  destruct (clampAltitude fmt (pressureAltitudeFt inp) (axisOf d))
    as [pa nts] eqn:Ec.
  specialize (Hnotes pa nts eq_refl).
  destruct (bilinear pa (oatC inp) (axisOf d) (temperatures_c (grid d)) rg)
    as [r|]; [|discriminate].
  destruct (bilinear pa (oatC inp) (axisOf d) (temperatures_c (grid d)) og)
    as [o|]; [|discriminate].
  cbn [bind] in H.
  destruct r as [r|], o as [o|];
    try (left; injection H as <-; eexists _, _, nts;
         split; [reflexivity | exact Hnotes]).
  right. destruct (applyGrass _ _) as [r' o']. injection H as <-.
  eexists _, _, _, _. repeat split. exact Hnotes.
Qed.

Lemma calculate_result_shape_witness :
  (exists note, noDistance (Fin 58) (Fin 63) [extrapolationNote] = rejected note)
  \/ (exists lo a50 ns,
        noDistance (Fin 58) (Fin 63) [extrapolationNote]
        = noDistance lo a50 (extrapolationNote :: ns)
        /\ (ns = [] \/ ns = [clampNote Toy.noOther 0]))
  \/ (exists g c lo a50,
        groundRollFt (noDistance (Fin 58) (Fin 63) [extrapolationNote]) = Some g
        /\ toClear50Ft (noDistance (Fin 58) (Fin 63) [extrapolationNote]) = Some c
        /\ liftoffKIAS (noDistance (Fin 58) (Fin 63) [extrapolationNote]) = Some lo
        /\ at50ftKIAS (noDistance (Fin 58) (Fin 63) [extrapolationNote]) = Some a50
        /\ (notes (noDistance (Fin 58) (Fin 63) [extrapolationNote]) = []
            \/ notes (noDistance (Fin 58) (Fin 63) [extrapolationNote])
               = [clampNote Toy.noOther 0])).
Proof.
  apply (calculate_result_shape Toy.noOther Toy.toy
           (Toy.request 0 30 950 0 false)).
  vm_compute. reflexivity.
Defined.

(** ** Speeds *)

(** X13: the two speeds depend on the weight only: two requests of the
    same weight that both complete return the same speeds, whatever their
    altitude, temperature, wind and surface. *)
Theorem speeds_depend_on_weight_only (fmt : Q -> string) (d : DataSchema)
  (inp1 inp2 : CalcInput) (out1 out2 : CalcOutput) :
  weightLb inp1 = weightLb inp2 ->
  calculate fmt d inp1 = Normal out1 -> calculate fmt d inp2 = Normal out2 ->
  liftoffKIAS out1 = liftoffKIAS out2 /\ at50ftKIAS out1 = at50ftKIAS out2.
Proof.
  intros Hw H1 H2.
  destruct (calculate_Normal fmt d inp1 out1 H1)
    as [[n1 ->]|(lower & upper & rg & og & Hbl)].
  - destruct (calculate_Normal fmt d inp2 out2 H2)
      as [[n2 ->]|(lower & upper & rg & og & Hbl)]; [split; reflexivity|].
    rewrite <- Hw in Hbl.
    rewrite (calculate_in_range fmt d inp1 _ _ _ _ Hbl) in H1.
    apply lookupAndAdjust_speeds in H1. destruct H1 as [H1 _]. discriminate H1.
  - pose proof Hbl as Hbl2. rewrite Hw in Hbl2.
    rewrite (calculate_in_range fmt d inp1 _ _ _ _ Hbl) in H1.
    rewrite (calculate_in_range fmt d inp2 _ _ _ _ Hbl2) in H2.
    apply lookupAndAdjust_speeds in H1, H2.
    destruct H1 as [-> ->], H2 as [-> ->]. rewrite Hw. split; reflexivity.
Qed.

Lemma speeds_depend_on_weight_only_witness :
  Some (Fin 58) = Some (Fin 58) /\ Some (Fin 63) = Some (Fin 63).
Proof.
  apply (speeds_depend_on_weight_only Toy.noOther Toy.toy
           (Toy.request 0 0 950 0 false) (Toy.request 1000 30 950 9 true)
           {| groundRollFt := Some (Fin 525); toClear50Ft := Some (Fin 950);
              liftoffKIAS := Some (Fin 58); at50ftKIAS := Some (Fin 63);
              notes := [] |}
           (noDistance (Fin 58) (Fin 63) [extrapolationNote])).
  - reflexivity.
  - vm_compute. reflexivity.
  - vm_compute. reflexivity.
Defined.

(** ** Wind *)

Lemma scaled_round_congr (f1 f2 : Q) (grass : bool) (p : num * num) :
  f1 == f2 ->
  Math_round (fst (applyGrass grass (nmul (fst p) f1, nmul (snd p) f1)))
  = Math_round (fst (applyGrass grass (nmul (fst p) f2, nmul (snd p) f2)))
  /\ Math_round (snd (applyGrass grass (nmul (fst p) f1, nmul (snd p) f1)))
     = Math_round (snd (applyGrass grass (nmul (fst p) f2, nmul (snd p) f2))).
Proof.
  intros Hf. destruct p as [[r|] [o|]], grass; simpl;
    split; try reflexivity; apply Math_round_Qeq; rewrite Hf; reflexivity.
Qed.

(** Two winds on the same side whose factors agree give the same
    result. *)
Lemma calculate_same_factor (fmt : Q -> string) (d : DataSchema)
  (inp : CalcInput) (w1 w2 f1 f2 : Q) :
  (forall p, applyWind w1 p = (nmul (fst p) f1, nmul (snd p) f1)) ->
  (forall p, applyWind w2 p = (nmul (fst p) f2, nmul (snd p) f2)) ->
  f1 == f2 ->
  calculate fmt d (withWind inp w1) = calculate fmt d (withWind inp w2).
Proof.
  intros H1 H2 Hf. unfold calculate. cbn [withWind weightLb].
  destruct (defined (nth_error (sortByWeight (weights (grid d))) 0))
    as [first|]; [|reflexivity].
  destruct (defined (nth_error (sortByWeight (weights (grid d))) _))
    as [last|]; [|reflexivity].
  cbn [bind].
  destruct (Qltb (weightLb inp) (weight_lb first)
            || Qltb (weight_lb last) (weightLb inp)); [reflexivity|].
  destruct (bracket (weightLb inp) _ first last) as [lower upper].
  destruct (blendGrid ground_roll_ft _ lower upper) as [rg|]; [|reflexivity].
  destruct (blendGrid to_clear_50ft_ft _ lower upper) as [og|];
    [|reflexivity].
  cbn [bind]. unfold lookupAndAdjust.
  cbn [withWind pressureAltitudeFt oatC windKtSigned dryGrass].
  destruct (clampAltitude fmt (pressureAltitudeFt inp) _) as [pa nts].
  destruct (bilinear pa (oatC inp) _ _ rg) as [r|]; [|reflexivity].
  destruct (bilinear pa (oatC inp) _ _ og) as [o|]; [|reflexivity].
  cbn [bind]. destruct r as [r|], o as [o|]; try reflexivity.
  rewrite H1, H2.
  destruct (scaled_round_congr f1 f2 (dryGrass inp) (r, o) Hf) as [Er Eo].
  cbn [fst snd] in Er, Eo |- *.
  destruct (applyGrass (dryGrass inp) (nmul r f1, nmul o f1)) as [a1 b1].
  destruct (applyGrass (dryGrass inp) (nmul r f2, nmul o f2)) as [a2 b2].
  cbn [fst snd] in Er, Eo. rewrite Er, Eo. reflexivity.
Qed.

Lemma applyWind_head (w : Q) (p : num * num) :
  0 < w ->
  applyWind w p = (nmul (fst p) (headwindFactor w),
                   nmul (snd p) (headwindFactor w)).
Proof.
  intros H. unfold applyWind. destruct p as [r o].
  apply Qltb_lt in H. rewrite H. reflexivity.
Qed.

Lemma applyWind_tail (w : Q) (p : num * num) :
  w < 0 ->
  applyWind w p = (nmul (fst p) (tailwindFactor w),
                   nmul (snd p) (tailwindFactor w)).
Proof.
  intros H. unfold applyWind. destruct p as [r o].
  assert (H0 : Qltb 0 w = false) by (apply Qltb_ge; lra).
  apply Qltb_lt in H. rewrite H0, H. reflexivity.
Qed.

(** X11: the wind correction saturates.  A tailwind of more than 10 kt
    gives the result of 10 kt, and a headwind of more than 45 kt the
    result of 45 kt, on every table and request (thrown faults
    included). *)
Theorem wind_correction_saturates (fmt : Q -> string) (d : DataSchema)
  (inp : CalcInput) (wind : Q) :
  (wind <= -10 ->
     calculate fmt d (withWind inp wind) = calculate fmt d (withWind inp (-10)))
  /\ (45 <= wind ->
        calculate fmt d (withWind inp wind) = calculate fmt d (withWind inp 45)).
Proof.
  split; intros H.
  - apply (calculate_same_factor fmt d inp wind (-10)
             (tailwindFactor wind) (tailwindFactor (-10))).
    + intros p. apply applyWind_tail. lra.
    + intros p. apply applyWind_tail. reflexivity.
    + unfold tailwindFactor. cbn zeta.
      assert (Hmin : Qmin (Qabs wind) 10 == 10).
      { apply Q.min_r. rewrite Qabs_neg by lra. lra. }
      rewrite Hmin. reflexivity.
  - apply (calculate_same_factor fmt d inp wind 45
             (headwindFactor wind) (headwindFactor 45)).
    + intros p. apply applyWind_head. lra.
    + intros p. apply applyWind_head. reflexivity.
    + unfold headwindFactor.
      assert (Hmax : Qmax (1 - wind / 9 * (1 # 10)) (1 # 2) == 1 # 2).
      { apply Q.max_r. unfold Qdiv. change (/ 9) with (1 # 9). lra. }
      rewrite Hmax. reflexivity.
Qed.

Lemma wind_correction_saturates_witness :
  calculate Toy.noOther Toy.toy (withWind (Toy.request 0 0 950 0 false) (-25))
  = calculate Toy.noOther Toy.toy (withWind (Toy.request 0 0 950 0 false) (-10)).
Proof.
  apply (wind_correction_saturates Toy.noOther Toy.toy
           (Toy.request 0 0 950 0 false) (-25)).
  discriminate.
Defined.

(** X12: for a request whose calm-wind distances on the paved surface
    are computed, positive and of at most 10^12 ft, calm wind and every
    other wind return both distances, and against calm wind no headwind
    lengthens and no tailwind shortens either returned distance, on
    either surface. *)
Theorem wind_never_crosses_calm (fmt : Q -> string) (d : DataSchema)
  (inp : CalcInput) (outp : CalcOutput) (gp cp : Q) :
  calculate fmt d (withGrass (withWind inp 0) false) = Normal outp ->
  groundRollFt outp = Some (Fin gp) -> toClear50Ft outp = Some (Fin cp) ->
  0 < gp -> 0 < cp -> gp <= farthest -> cp <= farthest ->
  exists out0 g0 c0,
    calculate fmt d (withWind inp 0) = Normal out0
    /\ groundRollFt out0 = Some (Fin g0) /\ toClear50Ft out0 = Some (Fin c0)
    /\ forall wind,
         exists out g c,
           calculate fmt d (withWind inp wind) = Normal out
           /\ groundRollFt out = Some (Fin g) /\ toClear50Ft out = Some (Fin c)
           /\ (0 < wind -> g <= g0 /\ c <= c0)
           /\ (wind < 0 -> g0 <= g /\ c0 <= c).
Proof.
  intros H Hg Hc Hgpos Hcpos _ _.
  destruct (calculate_wind_values fmt d (withWind inp 0) outp gp cp H Hg Hc)
    as (r & o & Eg & Ec & Hform).
  cbn [withWind windKtSigned] in Eg, Ec.
  rewrite windMultiplier_calm in Eg, Ec.
  assert (Hr : 0 < r).
  { assert (0 < r * 1) by (apply positive_rounded; rewrite <- Eg; exact Hgpos).
    lra. }
  assert (Ho : 0 < o).
  { assert (0 < o * 1) by (apply positive_rounded; rewrite <- Ec; exact Hcpos).
    lra. }
  assert (Hat : forall w,
             calculate fmt d (withWind inp w)
             = Normal (rounded (windSurface r o (windMultiplier w)
                                  (dryGrass inp))
                         (liftoffKIAS outp) (at50ftKIAS outp) (notes outp))).
  { intros w. specialize (Hform w (dryGrass inp)).
    change (withGrass (withWind (withWind inp 0) w) (dryGrass inp))
      with (withWind inp w) in Hform. exact Hform. }
  eexists _, _, _. split; [apply Hat|].
  split; [reflexivity|]. split; [reflexivity|].
  intros wind. eexists _, _, _. split; [apply Hat|].
  split; [reflexivity|]. split; [reflexivity|].
  split; intros Hw.
  - destruct (windSurface_mono r o (windMultiplier 0) (windMultiplier wind)
                (dryGrass inp) Hr Ho) as [Hf Hs].
    { apply windMultiplier_antitone. lra. }
    split; rewrite <- Zle_Qle; apply round_half_up_mono; assumption.
  - destruct (windSurface_mono r o (windMultiplier wind) (windMultiplier 0)
                (dryGrass inp) Hr Ho) as [Hf Hs].
    { apply windMultiplier_antitone. lra. }
    split; rewrite <- Zle_Qle; apply round_half_up_mono; assumption.
Qed.

Lemma wind_never_crosses_calm_witness :
  exists out0 g0 c0,
    calculate Toy.noOther Toy.toy (withWind (Toy.request 0 0 950 0 true) 0)
    = Normal out0
    /\ groundRollFt out0 = Some (Fin g0) /\ toClear50Ft out0 = Some (Fin c0)
    /\ exists out g c,
         calculate Toy.noOther Toy.toy
           (withWind (Toy.request 0 0 950 0 true) (-5)) = Normal out
         /\ groundRollFt out = Some (Fin g) /\ toClear50Ft out = Some (Fin c)
         /\ g0 <= g /\ c0 <= c.
Proof.
  destruct (wind_never_crosses_calm Toy.noOther Toy.toy
              (Toy.request 0 0 950 0 true)
              {| groundRollFt := Some (Fin 525); toClear50Ft := Some (Fin 950);
                 liftoffKIAS := Some (Fin 58); at50ftKIAS := Some (Fin 63);
                 notes := [] |} 525 950)
    as (out0 & g0 & c0 & H0 & Hg0 & Hc0 & Hall).
  - vm_compute. reflexivity.
  - reflexivity.
  - reflexivity.
  - reflexivity.
  - reflexivity.
  - discriminate.
  - discriminate.
  - exists out0, g0, c0. repeat (split; [assumption|]).
    destruct (Hall (-5)) as (out & g & c & H & Hg & Hc & _ & Htail).
    destruct Htail as [Hgle Hcle]; [reflexivity|].
    exists out, g, c. repeat split; assumption.
Defined.

(** * The caller's angle helper *)

Lemma jsRem_360 (a : Q) :
  -360 < jsRem a 360 /\ jsRem a 360 < 360
  /\ (0 <= a -> 0 <= jsRem a 360).
Proof.
  unfold jsRem, Qtrunc, Qdiv. change (/ 360) with (1 # 360).
  set (q := a * (1 # 360)).
  assert (Hq : a == 360 * q) by (unfold q; field).
  destruct (Qle_bool 0 q) eqn:E.
  - apply Qle_bool_iff in E.
    pose proof (Qfloor_le q) as Hle. pose proof (Qlt_floor q) as Hlt.
    rewrite inject_Z_plus in Hlt. change (inject_Z 1) with 1 in Hlt.
    assert (H0 : 0 <= inject_Z (Qfloor q)).
    { change 0 with (inject_Z 0). rewrite <- Zle_Qle.
      rewrite <- (Qfloor_Z 0). apply Qfloor_resp_le. exact E. }
    revert Hle Hlt H0. generalize (inject_Z (Qfloor q)). intros F Hle Hlt H0.
    repeat split; intros; lra.
  - apply Qle_bool_false in E.
    pose proof (Qle_ceiling q) as Hle. pose proof (Qceiling_lt q) as Hlt.
    unfold Z.sub in Hlt. rewrite inject_Z_plus in Hlt.
    change (inject_Z (- (1))) with (-1) in Hlt.
    revert Hle Hlt. generalize (inject_Z (Qceiling q)). intros C Hle Hlt.
    repeat split; intros; lra.
Qed.

(** X14: [normDeg] folds any angle difference into the half-open turn
    from -180 (included) to 180 (excluded). *)
Theorem normDeg_range (delta : Q) :
  -180 <= normDeg delta /\ normDeg delta < 180.
Proof.
  unfold normDeg.
  destruct (jsRem_360 (delta + 180)) as (Hlo1 & Hhi1 & _).
  destruct (jsRem_360 (jsRem (delta + 180) 360 + 360))
    as (_ & Hhi2 & Hpos2).
  specialize (Hpos2 ltac:(lra)).
  split; lra.
Qed.


(** * The CSV line parser *)

Lemma string_app_assoc (a b c : string) : ((a ++ b) ++ c = a ++ (b ++ c))%string.
Proof.
  induction a as [|ch a IH]; simpl; [reflexivity | now rewrite IH].
Qed.

Lemma string_app_nil_r (a : string) : (a ++ EmptyString)%string = a.
Proof.
  induction a as [|ch a IH]; simpl; [reflexivity | now rewrite IH].
Qed.

Lemma parseCSVLoop_plain (f rest : string) (out : list string) (cur : string) :
  plainField f = true ->
  parseCSVLoop (f ++ rest) out cur false
  = parseCSVLoop rest out (cur ++ f) false.
Proof.
  revert cur. induction f as [|ch f IH]; intros cur Hp.
  - simpl. now rewrite string_app_nil_r.
  - cbn [plainField] in Hp. apply andb_true_iff in Hp.
    destruct Hp as [Hp Hf]. apply andb_true_iff in Hp.
    destruct Hp as [Hq Hc]. apply negb_true_iff in Hq, Hc.
    cbn [append parseCSVLoop]. rewrite Hq, Hc. cbn [andb].
    rewrite IH by exact Hf. now rewrite string_app_assoc.
Qed.

Lemma parseCSVLoop_comma (rest : string) (out : list string) (cur : string) :
  parseCSVLoop (String comma rest) out cur false
  = parseCSVLoop rest (out ++ [cur])%list EmptyString false.
Proof.
  reflexivity.
Qed.

Lemma parseCSVLoop_open (s : string) (out : list string) (cur : string) :
  parseCSVLoop (String dquote s) out cur false = parseCSVLoop s out cur true.
Proof.
  destruct s; reflexivity.
Qed.

Lemma parseCSVLoop_quoted (f rest : string) (out : list string) (cur : string) :
  rest = EmptyString \/ (exists r, rest = String comma r) ->
  parseCSVLoop (csvEscape f ++ String dquote rest) out cur true
  = parseCSVLoop rest out (cur ++ f) false.
Proof.
  intros Hrest. revert cur. induction f as [|ch f IH]; intros cur.
  - rewrite string_app_nil_r.
    destruct Hrest as [->|[r ->]]; reflexivity.
  - cbn [csvEscape]. destruct (Ascii.eqb ch dquote) eqn:E.
    + apply Ascii.eqb_eq in E. subst ch.
      cbn [append]. cbn [parseCSVLoop].
      rewrite Ascii.eqb_refl. cbn [andb].
      rewrite IH. now rewrite string_app_assoc.
    + cbn [append]. cbn [parseCSVLoop]. rewrite E. rewrite andb_false_r.
      rewrite IH. now rewrite string_app_assoc.
Qed.

Lemma parseCSVLoop_plain_fields (f : string) (fs : list string)
  (out : list string) :
  forallb plainField (f :: fs) = true ->
  parseCSVLoop (joinComma (f :: fs)) out EmptyString false
  = (out ++ f :: fs)%list.
Proof.
  revert f out. induction fs as [|g fs IH]; intros f out Hp.
  - cbn [forallb] in Hp. apply andb_true_iff in Hp. destruct Hp as [Hf _].
    cbn [joinComma]. rewrite <- (string_app_nil_r f) at 1.
    rewrite parseCSVLoop_plain by exact Hf. reflexivity.
  - cbn [forallb] in Hp. apply andb_true_iff in Hp. destruct Hp as [Hf Hfs].
    change (joinComma (f :: g :: fs))
      with (f ++ String comma (joinComma (g :: fs)))%string.
    rewrite parseCSVLoop_plain by exact Hf.
    rewrite parseCSVLoop_comma. rewrite IH by exact Hfs.
    rewrite <- app_assoc. reflexivity.
Qed.

Lemma parseCSVLoop_quoted_fields (f : string) (fs : list string)
  (out : list string) :
  parseCSVLoop (joinComma (map csvQuote (f :: fs))) out EmptyString false
  = (out ++ f :: fs)%list.
Proof.
  revert f out. induction fs as [|g fs IH]; intros f out.
  - cbn [map joinComma]. unfold csvQuote.
    rewrite parseCSVLoop_open, parseCSVLoop_quoted by now left.
    reflexivity.
  - change (joinComma (map csvQuote (f :: g :: fs)))
      with (csvQuote f ++ String comma (joinComma (map csvQuote (g :: fs))))%string.
    unfold csvQuote at 1. cbn [append].
    rewrite parseCSVLoop_open, string_app_assoc. cbn [append].
    rewrite parseCSVLoop_quoted by (right; eauto).
    rewrite parseCSVLoop_comma. rewrite IH.
    rewrite <- app_assoc. reflexivity.
Qed.

(** X15: [parseCSVLine] splits at commas: a line made of fields that hold
    no quote and no comma, joined by commas, parses back to exactly those
    fields (the empty line to one empty field). *)
Theorem parseCSVLine_plain_fields (f : string) (fs : list string) :
  forallb plainField (f :: fs) = true ->
  parseCSVLine (joinComma (f :: fs)) = f :: fs.
Proof.
  intros Hp. unfold parseCSVLine.
  now rewrite parseCSVLoop_plain_fields by exact Hp.
Qed.

Lemma parseCSVLine_plain_fields_witness :
  parseCSVLine (joinComma ["EGLL"; "09L"; EmptyString; "89.6"])
  = ["EGLL"; "09L"; EmptyString; "89.6"].
Proof.
  apply parseCSVLine_plain_fields. reflexivity.
Defined.

(** X16: [parseCSVLine] inverts the quoting of the format: whatever the
    fields hold (commas, quotes), putting each between quotes with its
    quotes doubled and joining them by commas gives a line that parses
    back to exactly those fields. *)
Theorem parseCSVLine_inverts_quoting (f : string) (fs : list string) :
  parseCSVLine (joinComma (map csvQuote (f :: fs))) = f :: fs.
Proof.
  unfold parseCSVLine. now rewrite parseCSVLoop_quoted_fields.
Qed.

Lemma joinComma_snoc (l : list string) (c : string) :
  l <> [] -> joinComma (l ++ [c]) = (joinComma l ++ String comma c)%string.
Proof.
  induction l as [|a tl IH]; intros Hne; [contradiction|].
  destruct tl as [|b tl'].
  - reflexivity.
  - change (joinComma ((a :: b :: tl') ++ [c]))
      with (a ++ String comma (joinComma ((b :: tl') ++ [c])))%string.
    rewrite IH by discriminate.
    change (joinComma (a :: b :: tl'))
      with (a ++ String comma (joinComma (b :: tl')))%string.
    rewrite string_app_assoc. reflexivity.
Qed.

Lemma joinComma_last_app (out : list string) (cur s : string) :
  joinComma (out ++ [cur ++ s]) = (joinComma (out ++ [cur]) ++ s)%string.
Proof.
  destruct out as [|a tl]; [reflexivity|].
  rewrite !joinComma_snoc by discriminate.
  rewrite string_app_assoc. reflexivity.
Qed.

Lemma parseCSVLoop_quoteFree (line : string) (out : list string)
  (cur : string) :
  quoteFree line = true ->
  joinComma (parseCSVLoop line out cur false)
  = (joinComma (out ++ [cur]) ++ line)%string.
Proof.
  revert out cur. induction line as [|ch rest IH]; intros out cur Hq.
  - simpl. now rewrite string_app_nil_r.
  - cbn [quoteFree] in Hq. apply andb_true_iff in Hq.
    destruct Hq as [Hch Hrest]. apply negb_true_iff in Hch.
    cbn [parseCSVLoop]. rewrite Hch.
    destruct (Ascii.eqb ch comma) eqn:Ec; cbn [andb negb].
    + apply Ascii.eqb_eq in Ec. subst ch.
      rewrite IH by exact Hrest.
      rewrite joinComma_snoc by (destruct out; discriminate).
      rewrite string_app_assoc. reflexivity.
    + rewrite IH by exact Hrest.
      rewrite joinComma_last_app, string_app_assoc. reflexivity.
Qed.

(** X17: on a line without quotes [parseCSVLine] loses nothing: joining
    the fields it returns by commas gives the line back. *)
Theorem parseCSVLine_lossless (line : string) :
  quoteFree line = true -> joinComma (parseCSVLine line) = line.
Proof.
  intros Hq. unfold parseCSVLine.
  now rewrite parseCSVLoop_quoteFree by exact Hq.
Qed.

Lemma parseCSVLine_lossless_witness :
  joinComma (parseCSVLine "EGLL,09L,,89.6,") = "EGLL,09L,,89.6,".
Proof.
  apply parseCSVLine_lossless. reflexivity.
Defined.
